(** * Twurple: emote-offset parsing and the EventSub subscription sweep

    A shallow embedding of

    - [parseEmoteOffsets], the parser of the emote tag of a chat message, and
    - [HelixEventSubApi.createSubscription],
      [HelixEventSubApi._deleteSubscriptionsWithCondition] and its two
      callers [deleteAllSubscriptions] and [deleteBrokenSubscriptions],

    together with the properties stated about them.

    JavaScript values are modelled as the code uses them: a value that
    may be [undefined] is an [option], a [Map] is an association list in
    insertion order, a thrown error (or a rejected promise) is the
    [Throw] case of a completion. *)

From Stdlib Require Import List String Ascii Bool Arith Lia.
Import ListNotations.

Local Open Scope string_scope.
Local Open Scope list_scope.

(** ** Completions: a result or a thrown error *)

Module Completion.

Inductive JSError : Type :=
| TypeError (msg : string)
| Error (msg : string).

Inductive t (A : Type) : Type :=
| Normal (a : A)
| Throw (e : JSError).

Arguments Normal {A} a.
Arguments Throw {A} e.

Definition bind {A B : Type} (c : t A) (k : A -> t B) : t B :=
  match c with
  | Normal a => k a
  | Throw e => Throw e
  end.

(** [Array.prototype.map] with a callback that may throw: the first
    throw aborts the traversal. *)
Fixpoint mapM {A B : Type} (f : A -> t B) (l : list A) : t (list B) :=
  match l with
  | [] => Normal []
  | a :: l' =>
      bind (f a) (fun b => bind (mapM f l') (fun bs => Normal (b :: bs)))
  end.

End Completion.

Import Completion.

Declare Scope completion_scope.
Delimit Scope completion_scope with completion.
Notation "x <- c ;; k" := (Completion.bind c (fun x => k))
  (at level 61, c at next level, right associativity) : completion_scope.
Local Open Scope completion_scope.

(** ** JavaScript strings *)

Module JS.

(** [ToBoolean] of a value that is a string or [undefined]. *)
Definition truthy (v : option string) : bool :=
  match v with
  | None => false
  | Some s => negb (s =? "")
  end.

(** [s.split(sep)] for a one-character separator.  The result is never
    empty: splitting the empty string gives the array holding the empty
    string.  The separators of this file are ASCII characters, which
    split a string at the same places whatever the encoding of the
    other characters. *)
Fixpoint split (sep : ascii) (s : string) : list string :=
  match s with
  | EmptyString => [EmptyString]
  | String c s' =>
      if Ascii.eqb c sep then EmptyString :: split sep s'
      else match split sep s' with
           | piece :: pieces => String c piece :: pieces
           | [] => [String c EmptyString]
           end
  end.

(** The method call [v.split(sep, limit)] on a value that may be
    [undefined]: reading a property of [undefined] throws a
    [TypeError]; a limit keeps the first [limit] pieces of the full
    split. *)
Definition String_split (v : option string) (sep : ascii)
           (limit : option nat) : Completion.t (list string) :=
  match v with
  | None => Throw (TypeError "Cannot read properties of undefined")
  | Some s =>
      Normal (match limit with
              | None => split sep s
              | Some n => firstn n (split sep s)
              end)
  end.

(** [pieces.join(sep)], which [split] undoes on pieces free of the
    separator. *)
Fixpoint join (sep : ascii) (pieces : list string) : string :=
  match pieces with
  | [] => EmptyString
  | p :: ps =>
      match ps with
      | [] => p
      | _ :: _ => p ++ String sep (join sep ps)
      end
  end.

(** Whether a character occurs in a string. *)
Fixpoint occurs (c : ascii) (s : string) : bool :=
  match s with
  | EmptyString => false
  | String c' s' => Ascii.eqb c' c || occurs c s'
  end.

End JS.

(** ** The JavaScript [Map] with string keys

    A [Map] keeps its entries in insertion order; setting a key that is
    already present replaces the value and keeps the key's position. *)

Module JSMap.

Definition t (V : Type) : Type := list (string * V).

Fixpoint set {V : Type} (k : string) (v : V) (m : t V) : t V :=
  match m with
  | [] => [(k, v)]
  | (k', v') :: m' =>
      if k' =? k then (k', v) :: m' else (k', v') :: set k v m'
  end.

Fixpoint get {V : Type} (k : string) (m : t V) : option V :=
  match m with
  | [] => None
  | (k', v') :: m' => if k' =? k then Some v' else get k m'
  end.

Definition keys {V : Type} (m : t V) : list string := map fst m.

(** The entries of an iterable are set one after the other, starting
    from the map [m]. *)
Definition setAll {V : Type} (entries : list (string * V)) (m : t V) : t V :=
  fold_left (fun m kv => set (fst kv) (snd kv) m) entries m.

(** [new Map(entries)]. *)
Definition new {V : Type} (entries : list (string * V)) : t V :=
  setAll entries [].

End JSMap.

(** ** [parseEmoteOffsets] *)

Definition EmoteOffsetMap : Type := JSMap.t (list string).

(** The callback given to [map]: one ['/']-separated piece becomes an
    entry of the future map, or [null] (here [None]).

    [const [emoteId, placements] = emote.split(':', 2)] binds
    [emoteId] to the first piece and [placements] to the second, each
    [undefined] when missing.  The entry is built only when
    [placements] is truthy, where [emoteId] is a string. *)
Definition parseEmote (emote : string)
  : Completion.t (option (string * list string)) :=
  parts <- JS.String_split (Some emote) ":" (Some 2) ;;
  match parts with
  | [] =>
      (* [emoteId] and [placements] are both [undefined]: [!placements] *)
      Normal None
  | emoteId :: rest =>
      let placements := nth_error rest 0 in
      if negb (JS.truthy placements) then Normal None
      else
        offsets <- JS.String_split placements "," None ;;
        Normal (Some (emoteId, offsets))
  end.

(** [filter((e) => e !== null)]. *)
Fixpoint dropNull {A : Type} (l : list (option A)) : list A :=
  match l with
  | [] => []
  | Some a :: l' => a :: dropNull l'
  | None :: l' => dropNull l'
  end.

Definition parseEmoteOffsets (emotes : option string)
  : Completion.t EmoteOffsetMap :=
  if negb (JS.truthy emotes) then Normal (JSMap.new [])
  else
    pieces <- JS.String_split emotes "/" None ;;
    entries <- Completion.mapM parseEmote pieces ;;
    Normal (JSMap.new (dropNull entries)).

(** *** Vocabulary of the statements about the parser *)

(** What [parseEmote] computes, without the completion: the entry a
    piece stands for, if any. *)
Definition entryOf (emote : string) : option (string * list string) :=
  match JS.split ":" emote with
  | emoteId :: placements :: _ =>
      if placements =? "" then None
      else Some (emoteId, JS.split "," placements)
  | _ => None
  end.

(** An emote tag written out from its entries:
    ["id1:p1,p2/id2:p3"]. *)
Definition renderEmote (e : string * list string) : string :=
  fst e ++ String ":" (JS.join "," (snd e)).

Definition renderEmotes (es : list (string * list string)) : string :=
  JS.join "/" (map renderEmote es).

Definition free (c : ascii) (s : string) : Prop := JS.occurs c s = false.

(** A well-formed entry: the id holds neither ['/'] nor [':'], a
    placement holds none of ['/'], [':'] and [','], and the placements
    segment is not empty. *)
Definition wellFormedEmote (e : string * list string) : Prop :=
  free "/" (fst e) /\ free ":" (fst e) /\
  Forall (fun p => free "/" p /\ free ":" p /\ free "," p) (snd e) /\
  JS.join "," (snd e) <> "".

(** The emote id of a piece: the text before its first colon. *)
Definition emoteIdOf (emote : string) : string :=
  hd "" (JS.split ":" emote).

(** A piece that is dropped: no colon in it, or a colon immediately
    followed by the end of the piece. *)
Definition noPlacements (emote : string) : Prop :=
  free ":" emote \/ exists id, free ":" id /\ emote = (id ++ ":")%string.

(** "An emote id that occurs in several entries is mapped to the
    placements of the last of them", read on every ['/']-separated
    piece of the input [s]. *)
Definition lastOccurrenceWins (s : string) : Prop :=
  forall pre emote post id,
    JS.split "/" s = pre ++ emote :: post ->
    emoteIdOf emote = id ->
    (exists earlier, In earlier pre /\ emoteIdOf earlier = id) ->
    (forall later, In later post -> emoteIdOf later <> id) ->
    exists m placements,
      parseEmoteOffsets (Some s) = Normal m /\
      emote = renderEmote (id, placements) /\
      JSMap.get id m = Some placements.

(** *** The parser on the store of JavaScript objects

    The parser once more, with the objects it works on made explicit.
    Every array and every [Map] of the code is an object in a store; a
    value is a primitive or a reference to an object; a method that
    creates an object allocates it, and [Map.prototype.set] writes to
    the [Map] it is called on.  A computation takes the store and
    gives a completion and the store it leaves. *)

Module Store.

Inductive Value : Type :=
| Undefined
| Null
| Str (s : string)
| Ref (location : nat).

Inductive Object : Type :=
| Array (elements : list Value)
| MapObject (entries : list (Value * Value)).

Definition t : Type := list Object.

Definition M (A : Type) : Type := t -> Completion.t A * t.

Definition ret {A : Type} (a : A) : M A := fun h => (Normal a, h).

Definition throw {A : Type} (e : JSError) : M A := fun h => (Throw e, h).

Definition bind {A B : Type} (c : M A) (k : A -> M B) : M B :=
  fun h =>
    match c h with
    | (Normal a, h') => k a h'
    | (Throw e, h') => (Throw e, h')
    end.

Fixpoint mapM {A B : Type} (f : A -> M B) (l : list A) : M (list B) :=
  match l with
  | [] => ret []
  | a :: l' =>
      bind (f a) (fun b => bind (mapM f l') (fun bs => ret (b :: bs)))
  end.

Fixpoint forEach {A : Type} (f : A -> M unit) (l : list A) : M unit :=
  match l with
  | [] => ret tt
  | a :: l' => bind (f a) (fun _ => forEach f l')
  end.

(** [ToBoolean]. *)
Definition truthy (v : Value) : bool :=
  match v with
  | Undefined | Null => false
  | Str s => negb (s =? "")
  | Ref _ => true
  end.

(** [v !== null]. *)
Definition notNull (v : Value) : bool :=
  match v with
  | Null => false
  | _ => true
  end.

(** The comparison of the keys of a [Map]. *)
Definition sameValueZero (v w : Value) : bool :=
  match v, w with
  | Undefined, Undefined => true
  | Null, Null => true
  | Str s, Str s' => s =? s'
  | Ref r, Ref r' => Nat.eqb r r'
  | _, _ => false
  end.

(** A new object: it takes the next location of the store. *)
Definition allocate (o : Object) : M Value :=
  fun h => (Normal (Ref (List.length h)), h ++ [o]).

(** The elements of the array a value refers to; any other value is
    not iterable. *)
Definition elementsOf (v : Value) : M (list Value) :=
  fun h =>
    match v with
    | Ref r =>
        match nth_error h r with
        | Some (Array elements) => (Normal elements, h)
        | _ => (Throw (TypeError "object is not iterable"), h)
        end
    | _ => (Throw (TypeError "value is not iterable"), h)
    end.

(** [v.split(sep, limit)]: a new array of the pieces; only a string
    has the method. *)
Definition String_split (v : Value) (sep : ascii) (limit : option nat)
  : M Value :=
  match v with
  | Str s =>
      allocate (Array (map Str (match limit with
                                | None => JS.split sep s
                                | Some n => firstn n (JS.split sep s)
                                end)))
  | _ => throw (TypeError "split is not a function")
  end.

(** [array.map(f)]: a new array of what the callback returns. *)
Definition Array_map (array : Value) (f : Value -> M Value) : M Value :=
  bind (elementsOf array) (fun elements =>
  bind (mapM f elements) (fun results =>
  allocate (Array results))).

(** [array.filter(p)]: a new array of the elements kept. *)
Definition Array_filter (array : Value) (p : Value -> bool) : M Value :=
  bind (elementsOf array) (fun elements =>
  allocate (Array (filter p elements))).

(** The entries of a [Map] after [set]. *)
Fixpoint setEntry (k v : Value) (entries : list (Value * Value))
  : list (Value * Value) :=
  match entries with
  | [] => [(k, v)]
  | (k', v') :: entries' =>
      if sameValueZero k' k then (k', v) :: entries'
      else (k', v') :: setEntry k v entries'
  end.

(** [m.set(k, v)]: the [Map] object at the location of [m] is
    replaced by the one with the entry set. *)
Definition Map_set (m k v : Value) : M unit :=
  fun h =>
    match m with
    | Ref r =>
        match nth_error h r with
        | Some (MapObject entries) =>
            (Normal tt,
             firstn r h ++ MapObject (setEntry k v entries) :: skipn (S r) h)
        | _ => (Throw (TypeError "receiver is not a Map"), h)
        end
    | _ => (Throw (TypeError "receiver is not a Map"), h)
    end.

(** [new Map(iterable)]: a new empty [Map], on which every entry of
    the iterable, a two-element array, is set. *)
Definition new_Map (iterable : Value) : M Value :=
  bind (allocate (MapObject [])) (fun m =>
  match iterable with
  | Undefined | Null => ret m
  | _ =>
      bind (elementsOf iterable) (fun entries =>
      bind (forEach (fun entry =>
                       bind (elementsOf entry) (fun pair =>
                       Map_set m (nth 0 pair Undefined) (nth 1 pair Undefined)))
                    entries) (fun _ =>
      ret m))
  end).

(** The callback given to [map]. *)
Definition parseEmote (emote : Value) : M Value :=
  bind (String_split emote ":" (Some 2)) (fun parts =>
  bind (elementsOf parts) (fun elements =>
  let emoteId := nth 0 elements Undefined in
  let placements := nth 1 elements Undefined in
  if negb (truthy placements) then ret Null
  else
    bind (String_split placements "," None) (fun offsets =>
    allocate (Array [emoteId; offsets])))).

Definition parseEmoteOffsets (emotes : Value) : M Value :=
  if negb (truthy emotes) then new_Map Undefined
  else
    bind (String_split emotes "/" None) (fun pieces =>
    bind (Array_map pieces parseEmote) (fun mapped =>
    bind (Array_filter mapped notNull) (fun entries =>
    new_Map entries))).

(** The argument of the parser as a value. *)
Definition ofOption (emotes : option string) : Value :=
  match emotes with
  | None => Undefined
  | Some s => Str s
  end.

(** **** Reading a result off the store *)

Fixpoint stringsOf (vs : list Value) : option (list string) :=
  match vs with
  | [] => Some []
  | Str s :: vs' => option_map (cons s) (stringsOf vs')
  | _ :: _ => None
  end.

(** An entry of a [Map<string, string[]>]: a string and a reference
    to an array of strings. *)
Definition entryContent (h : t) (entry : Value * Value)
  : option (string * list string) :=
  match entry with
  | (Str k, Ref a) =>
      match nth_error h a with
      | Some (Array elements) => option_map (pair k) (stringsOf elements)
      | _ => None
      end
  | _ => None
  end.

Fixpoint entriesContent (h : t) (entries : list (Value * Value))
  : option (list (string * list string)) :=
  match entries with
  | [] => Some []
  | entry :: entries' =>
      match entryContent h entry, entriesContent h entries' with
      | Some e, Some es => Some (e :: es)
      | _, _ => None
      end
  end.

(** The emote ids and placements of the [Map] a value refers to. *)
Definition mapContent (h : t) (v : Value) : option EmoteOffsetMap :=
  match v with
  | Ref r =>
      match nth_error h r with
      | Some (MapObject entries) => entriesContent h entries
      | _ => None
      end
  | _ => None
  end.

(** A value that stands for what [parseEmote] returns: [null], or a
    reference to the pair of the emote id and a reference to the array
    of its placements. *)
Definition represents (h : t) (v : Value)
           (entry : option (string * list string)) : Prop :=
  match entry with
  | None => v = Null
  | Some (emoteId, placements) =>
      exists p a,
        v = Ref p /\
        nth_error h p = Some (Array [Str emoteId; Ref a]) /\
        nth_error h a = Some (Array (map Str placements))
  end.

(** The entries of a [Map] object that stand for a map of emote
    offsets. *)
Definition representsMap (h : t) (entries : list (Value * Value))
           (m : EmoteOffsetMap) : Prop :=
  Forall2 (fun entry e =>
             exists a,
               entry = (Str (fst e), Ref a) /\
               nth_error h a = Some (Array (map Str (snd e))))
          entries m.

End Store.

(** ** EventSub subscriptions: [HelixEventSubApi] *)

Module EventSub.

(** What the methods below read of a [HelixEventSubSubscription]. *)
Record HelixEventSubSubscription : Type := {
  id : string;
  status : string
}.

(** One answer of the paginator's async iterator to a request for the
    next record; the end of the list is the end of the iteration. *)
Inductive IterStep : Type :=
| Yield (sub : HelixEventSubSubscription)
| Fail (e : JSError).



(** What the sweep does to its collaborators, in the order it does
    it. *)
Inductive Event : Type :=
| NextRequested
| CondEvaluated (sub : HelixEventSubSubscription)
| UnsubscribeCalled (sub : HelixEventSubSubscription)
| UnsubscribeResolved (sub : HelixEventSubSubscription)
| UnsubscribeRejected (sub : HelixEventSubSubscription) (e : JSError).

Record Run (World : Type) : Type := {
  trace : list Event;
  outcome : Completion.t unit;
  world : World
}.

Arguments trace {World} r.
Arguments outcome {World} r.
Arguments world {World} r.

Definition after {World : Type} (evs : list Event) (r : Run World)
  : Run World :=
  {| trace := evs ++ trace r; outcome := outcome r; world := world r |}.

Section Sweep.

(** The state of the platform, and the action behind
    [sub.unsubscribe()], which changes it and may fail. *)
Variable World : Type.
Variable unsubscribe :
  HelixEventSubSubscription -> World -> Completion.t unit * World.

(** What the paginator made by [this.getSubscriptionsPaginated()]
    yields. *)
Variable getSubscriptionsPaginated : list IterStep.

(** The loop [for await (const sub of subsPaginator) { if (!cond ||
    cond(sub)) { await sub.unsubscribe(); } }]. *)
Fixpoint forAwait (cond : option (HelixEventSubSubscription -> bool))
         (subsPaginator : list IterStep) (w : World) : Run World :=
  match subsPaginator with
  | [] => {| trace := [NextRequested]; outcome := Normal tt; world := w |}
  | Fail e :: _ =>
      {| trace := [NextRequested]; outcome := Throw e; world := w |}
  | Yield sub :: rest =>
      let (asked, go) :=
        match cond with
        | None => ([], true)
        | Some c => ([CondEvaluated sub], c sub)
        end in
      if go then
        match unsubscribe sub w with
        | (Normal _, w') =>
            after (NextRequested :: asked
                     ++ [UnsubscribeCalled sub; UnsubscribeResolved sub])
                  (forAwait cond rest w')
        | (Throw e, w') =>
            {| trace := NextRequested :: asked
                          ++ [UnsubscribeCalled sub; UnsubscribeRejected sub e];
               outcome := Throw e;
               world := w' |}
        end
      else after (NextRequested :: asked) (forAwait cond rest w)
  end.

Definition _deleteSubscriptionsWithCondition
           (cond : option (HelixEventSubSubscription -> bool)) (w : World)
  : Run World :=
  let subsPaginator := getSubscriptionsPaginated in
  forAwait cond subsPaginator w.

Definition deleteAllSubscriptions (w : World) : Run World :=
  _deleteSubscriptionsWithCondition None w.

Definition deleteBrokenSubscriptions (w : World) : Run World :=
  _deleteSubscriptionsWithCondition
    (Some (fun sub =>
             negb (status sub =? "enabled")
             && negb (status sub =? "webhook_callback_verification_pending")))
    w.

End Sweep.

(** *** Vocabulary of the statements about the sweep *)

(** Whether the sweep unsubscribes a record. *)
Definition selected (cond : option (HelixEventSubSubscription -> bool))
           (sub : HelixEventSubSubscription) : bool :=
  match cond with
  | None => true
  | Some c => c sub
  end.

(** The records an iteration hands out before it ends or fails. *)
Fixpoint yielded (it : list IterStep) : list HelixEventSubSubscription :=
  match it with
  | Yield sub :: rest => sub :: yielded rest
  | _ => []
  end.

(** The records whose [unsubscribe] was invoked, in order. *)
Fixpoint unsubscribed (tr : list Event) : list HelixEventSubSubscription :=
  match tr with
  | [] => []
  | UnsubscribeCalled sub :: tr' => sub :: unsubscribed tr'
  | _ :: tr' => unsubscribed tr'
  end.

(** The records the predicate was evaluated on, in order. *)
Fixpoint evaluated (tr : list Event) : list HelixEventSubSubscription :=
  match tr with
  | [] => []
  | CondEvaluated sub :: tr' => sub :: evaluated tr'
  | _ :: tr' => evaluated tr'
  end.

(** How often the next record was requested. *)
Fixpoint requests (tr : list Event) : nat :=
  match tr with
  | [] => 0
  | NextRequested :: tr' => S (requests tr')
  | _ :: tr' => requests tr'
  end.


(** What an undisturbed sweep does for one record. *)
Definition handled (cond : option (HelixEventSubSubscription -> bool))
           (sub : HelixEventSubSubscription) : list Event :=
  NextRequested
    :: match cond with
       | None => []
       | Some _ => [CondEvaluated sub]
       end
    ++ (if selected cond sub
        then [UnsubscribeCalled sub; UnsubscribeResolved sub]
        else []).

(** *** [createSubscription] *)

Section CreateSubscription.

(** Declared outside these sources: the types [UserIdResolvable] (with
    its [ToBoolean], [extractUserId] and the helper [mapOptional] at this
    type), the condition, the transport options (with their [method]
    field) and the data of a subscription in a response; [callApi] is
    the client's request function. *)
Variable UserIdResolvable : Type.
Variable toBoolean : UserIdResolvable -> bool.
Variable extractUserId : UserIdResolvable -> string.
Variable mapOptional :
  option UserIdResolvable -> (UserIdResolvable -> string) -> option string.
Variable Condition : Type.
Variable HelixEventSubTransportOptions : Type.
Variable method : HelixEventSubTransportOptions -> string.
Variable HelixEventSubSubscriptionData : Type.

Record JsonBody : Type := {
  body_type : string;
  body_version : string;
  body_condition : Condition;
  body_transport : HelixEventSubTransportOptions;
  is_batching_enabled : option bool
}.

Record HelixApiCallOptions : Type := {
  call_type : string;
  url : string;
  call_method : string;
  scopes : option (list string);
  userId : option string;
  forceType : string;
  jsonBody : JsonBody
}.

Variable callApi :
  HelixApiCallOptions -> Completion.t (list HelixEventSubSubscriptionData).

(** The requests a call issued, and how it ended: with the data the
    returned subscription object wraps ([result.data[0]], which may be
    [undefined]) or with an error. *)
Record Call : Type := {
  issued : list HelixApiCallOptions;
  returned : Completion.t (option HelixEventSubSubscriptionData)
}.

Definition truthyUser (user : option UserIdResolvable) : bool :=
  match user with
  | None => false
  | Some u => toBoolean u
  end.

Definition guardMessage (transport : HelixEventSubTransportOptions) : string :=
  "Transport " ++ method transport
    ++ " can only handle subscriptions with user context".

Definition createSubscription
           (type version : string) (condition : Condition)
           (transport : HelixEventSubTransportOptions)
           (user : option UserIdResolvable)
           (requiredScopeSet : option (list string))
           (isBatched : option bool) : Call :=
  let usesAppAuth := method transport =? "webhook" in
  let scopes := if usesAppAuth then None else requiredScopeSet in
  if negb usesAppAuth && negb (truthyUser user) then
    {| issued := []; returned := Throw (Error (guardMessage transport)) |}
  else
    let jsonBody :=
      {| body_type := type;
         body_version := version;
         body_condition := condition;
         body_transport := transport;
         is_batching_enabled :=
           match isBatched with
           | Some true => Some true
           | _ => None
           end |} in
    let options :=
      {| call_type := "helix";
         url := "eventsub/subscriptions";
         call_method := "POST";
         scopes := scopes;
         userId := mapOptional user extractUserId;
         forceType := if usesAppAuth then "app" else "user";
         jsonBody := jsonBody |} in
    {| issued := [options];
       returned := (result <- callApi options ;; Normal (nth_error result 0)) |}.

(** The guard fired: the call threw its error and issued no request. *)
Definition guardFired (transport : HelixEventSubTransportOptions) (c : Call)
  : Prop :=
  issued c = [] /\ returned c = Throw (Error (guardMessage transport)).

(** "The guard fires when the transport is not a webhook and no user
    argument is supplied, and in no other case." *)
Definition guardOnlyWithoutUser : Prop :=
  forall type version condition transport user requiredScopeSet isBatched,
    guardFired transport
      (createSubscription type version condition transport user
                          requiredScopeSet isBatched)
    <-> method transport <> "webhook" /\ user = None.

End CreateSubscription.

Arguments issued {Condition HelixEventSubTransportOptions
                  HelixEventSubSubscriptionData} c.
Arguments returned {Condition HelixEventSubTransportOptions
                    HelixEventSubSubscriptionData} c.
Arguments truthyUser {UserIdResolvable} toBoolean user.
Arguments guardMessage {HelixEventSubTransportOptions} method transport.
Arguments guardFired {Condition HelixEventSubTransportOptions} method
          {HelixEventSubSubscriptionData} transport c.

End EventSub.

(** * Further vocabulary *)

(** ** The parser *)

(** How often a character occurs in a string. *)
Fixpoint countChar (c : ascii) (s : string) : nat :=
  match s with
  | EmptyString => 0
  | String c' s' => (if Ascii.eqb c' c then 1 else 0) + countChar c s'
  end.

(** A list of keys without its repetitions: each key stays where it
    occurs first. *)
Fixpoint firstOccurrences (ks : list string) : list string :=
  match ks with
  | [] => []
  | k :: ks' => k :: filter (fun k' => negb (k' =? k)) (firstOccurrences ks')
  end.

(** The keys of a [Map] after a key is set. *)
Definition addKey (ks : list string) (k : string) : list string :=
  if existsb (String.eqb k) ks then ks else ks ++ [k].

(** ** The subscribing methods of [HelixEventSubApi] *)

Module HelixEventSubApi.

(** What the methods take from outside these sources: the user ids
    with their [ToBoolean], [extractUserId] and [mapOptional], the
    transport options with their [method] field, the client's
    [callApi], and the functions that build the condition of a
    subscription. *)
Class Client : Type := {
  UserIdResolvable : Type;
  toBoolean : UserIdResolvable -> bool;
  extractUserId : UserIdResolvable -> string;
  mapOptional :
    option UserIdResolvable -> (UserIdResolvable -> string) -> option string;
  Condition : Type;
  HelixEventSubTransportOptions : Type;
  method : HelixEventSubTransportOptions -> string;
  HelixEventSubSubscriptionData : Type;
  callApi :
    EventSub.HelixApiCallOptions Condition HelixEventSubTransportOptions
    -> Completion.t (list HelixEventSubSubscriptionData);
  createEventSubBroadcasterCondition : UserIdResolvable -> Condition;
  createEventSubModeratorCondition :
    UserIdResolvable -> UserIdResolvable -> Condition;
  createEventSubRewardCondition : UserIdResolvable -> string -> Condition;
  createSingleKeyQuery : string -> string -> Condition;
  HelixEventSubDropEntitlementGrantFilter : Type;
  createEventSubDropEntitlementGrantCondition :
    HelixEventSubDropEntitlementGrantFilter -> Condition
}.

Section Methods.

Context {client : Client}.

Definition Call : Type :=
  EventSub.Call Condition HelixEventSubTransportOptions
                HelixEventSubSubscriptionData.

Definition ApiCallOptions : Type :=
  EventSub.HelixApiCallOptions Condition HelixEventSubTransportOptions.

(** [this.createSubscription], with this client. *)
Definition createSubscription :
  string -> string -> Condition -> HelixEventSubTransportOptions ->
  option UserIdResolvable -> option (list string) -> option bool -> Call :=
  EventSub.createSubscription
    UserIdResolvable toBoolean extractUserId mapOptional Condition
    HelixEventSubTransportOptions method HelixEventSubSubscriptionData callApi.

Definition subscribeToStreamOnlineEvents
           (broadcaster : UserIdResolvable)
           (transport : HelixEventSubTransportOptions) : Call :=
  createSubscription "stream.online" "1"
    (createEventSubBroadcasterCondition broadcaster)
    transport (Some broadcaster)
    None None.

Definition subscribeToStreamOfflineEvents
           (broadcaster : UserIdResolvable)
           (transport : HelixEventSubTransportOptions) : Call :=
  createSubscription "stream.offline" "1"
    (createEventSubBroadcasterCondition broadcaster)
    transport (Some broadcaster)
    None None.

Definition subscribeToChannelUpdateEvents
           (broadcaster : UserIdResolvable)
           (transport : HelixEventSubTransportOptions) : Call :=
  createSubscription "channel.update" "1"
    (createEventSubBroadcasterCondition broadcaster)
    transport (Some broadcaster)
    None None.

Definition subscribeToChannelFollowEvents
           (broadcaster : UserIdResolvable)
           (transport : HelixEventSubTransportOptions) : Call :=
  createSubscription "channel.follow" "1"
    (createEventSubBroadcasterCondition broadcaster)
    transport (Some broadcaster)
    None None.

Definition subscribeToChannelFollowEventsV2
           (broadcaster : UserIdResolvable)
           (moderator : UserIdResolvable)
           (transport : HelixEventSubTransportOptions) : Call :=
  createSubscription "channel.follow" "2"
    (createEventSubModeratorCondition broadcaster moderator)
    transport (Some moderator)
    (Some ["moderator:read:followers"]) None.

Definition subscribeToChannelSubscriptionEvents
           (broadcaster : UserIdResolvable)
           (transport : HelixEventSubTransportOptions) : Call :=
  createSubscription "channel.subscribe" "1"
    (createEventSubBroadcasterCondition broadcaster)
    transport (Some broadcaster)
    (Some ["channel:read:subscriptions"]) None.

Definition subscribeToChannelSubscriptionGiftEvents
           (broadcaster : UserIdResolvable)
           (transport : HelixEventSubTransportOptions) : Call :=
  createSubscription "channel.subscription.gift" "1"
    (createEventSubBroadcasterCondition broadcaster)
    transport (Some broadcaster)
    (Some ["channel:read:subscriptions"]) None.

Definition subscribeToChannelSubscriptionMessageEvents
           (broadcaster : UserIdResolvable)
           (transport : HelixEventSubTransportOptions) : Call :=
  createSubscription "channel.subscription.message" "1"
    (createEventSubBroadcasterCondition broadcaster)
    transport (Some broadcaster)
    (Some ["channel:read:subscriptions"]) None.

Definition subscribeToChannelSubscriptionEndEvents
           (broadcaster : UserIdResolvable)
           (transport : HelixEventSubTransportOptions) : Call :=
  createSubscription "channel.subscription.end" "1"
    (createEventSubBroadcasterCondition broadcaster)
    transport (Some broadcaster)
    (Some ["channel:read:subscriptions"]) None.

Definition subscribeToChannelCheerEvents
           (broadcaster : UserIdResolvable)
           (transport : HelixEventSubTransportOptions) : Call :=
  createSubscription "channel.cheer" "1"
    (createEventSubBroadcasterCondition broadcaster)
    transport (Some broadcaster)
    (Some ["bits:read"]) None.

Definition subscribeToChannelCharityCampaignStartEvents
           (broadcaster : UserIdResolvable)
           (transport : HelixEventSubTransportOptions) : Call :=
  createSubscription "channel.charity_campaign.start" "1"
    (createEventSubBroadcasterCondition broadcaster)
    transport (Some broadcaster)
    (Some ["channel:read:charity"]) None.

Definition subscribeToChannelCharityCampaignStopEvents
           (broadcaster : UserIdResolvable)
           (transport : HelixEventSubTransportOptions) : Call :=
  createSubscription "channel.charity_campaign.stop" "1"
    (createEventSubBroadcasterCondition broadcaster)
    transport (Some broadcaster)
    (Some ["channel:read:charity"]) None.

Definition subscribeToChannelCharityDonationEvents
           (broadcaster : UserIdResolvable)
           (transport : HelixEventSubTransportOptions) : Call :=
  createSubscription "channel.charity_campaign.donate" "1"
    (createEventSubBroadcasterCondition broadcaster)
    transport (Some broadcaster)
    (Some ["channel:read:charity"]) None.

Definition subscribeToChannelCharityCampaignProgressEvents
           (broadcaster : UserIdResolvable)
           (transport : HelixEventSubTransportOptions) : Call :=
  createSubscription "channel.charity_campaign.progress" "1"
    (createEventSubBroadcasterCondition broadcaster)
    transport (Some broadcaster)
    (Some ["channel:read:charity"]) None.

Definition subscribeToChannelBanEvents
           (broadcaster : UserIdResolvable)
           (transport : HelixEventSubTransportOptions) : Call :=
  createSubscription "channel.ban" "1"
    (createEventSubBroadcasterCondition broadcaster)
    transport (Some broadcaster)
    (Some ["channel:moderate"]) None.

Definition subscribeToChannelUnbanEvents
           (broadcaster : UserIdResolvable)
           (transport : HelixEventSubTransportOptions) : Call :=
  createSubscription "channel.unban" "1"
    (createEventSubBroadcasterCondition broadcaster)
    transport (Some broadcaster)
    (Some ["channel:moderate"]) None.

Definition subscribeToChannelShieldModeBeginEvents
           (broadcaster : UserIdResolvable)
           (moderator : UserIdResolvable)
           (transport : HelixEventSubTransportOptions) : Call :=
  createSubscription "channel.shield_mode.begin" "1"
    (createEventSubModeratorCondition broadcaster moderator)
    transport (Some broadcaster)
    (Some ["moderator:read:shield_mode"; "moderator:manage:shield_mode"]) None.

Definition subscribeToChannelShieldModeEndEvents
           (broadcaster : UserIdResolvable)
           (moderator : UserIdResolvable)
           (transport : HelixEventSubTransportOptions) : Call :=
  createSubscription "channel.shield_mode.end" "1"
    (createEventSubModeratorCondition broadcaster moderator)
    transport (Some broadcaster)
    (Some ["moderator:read:shield_mode"; "moderator:manage:shield_mode"]) None.

Definition subscribeToChannelModeratorAddEvents
           (broadcaster : UserIdResolvable)
           (transport : HelixEventSubTransportOptions) : Call :=
  createSubscription "channel.moderator.add" "1"
    (createEventSubBroadcasterCondition broadcaster)
    transport (Some broadcaster)
    (Some ["moderation:read"]) None.

Definition subscribeToChannelModeratorRemoveEvents
           (broadcaster : UserIdResolvable)
           (transport : HelixEventSubTransportOptions) : Call :=
  createSubscription "channel.moderator.remove" "1"
    (createEventSubBroadcasterCondition broadcaster)
    transport (Some broadcaster)
    (Some ["moderation:read"]) None.

Definition subscribeToChannelRaidEventsFrom
           (broadcaster : UserIdResolvable)
           (transport : HelixEventSubTransportOptions) : Call :=
  createSubscription "channel.raid" "1"
    (createSingleKeyQuery "from_broadcaster_user_id" (extractUserId broadcaster))
    transport (Some broadcaster)
    None None.

Definition subscribeToChannelRaidEventsTo
           (broadcaster : UserIdResolvable)
           (transport : HelixEventSubTransportOptions) : Call :=
  createSubscription "channel.raid" "1"
    (createSingleKeyQuery "to_broadcaster_user_id" (extractUserId broadcaster))
    transport (Some broadcaster)
    None None.

Definition subscribeToChannelRewardAddEvents
           (broadcaster : UserIdResolvable)
           (transport : HelixEventSubTransportOptions) : Call :=
  createSubscription "channel.channel_points_custom_reward.add" "1"
    (createEventSubBroadcasterCondition broadcaster)
    transport (Some broadcaster)
    (Some ["channel:read:redemptions"; "channel:manage:redemptions"]) None.

Definition subscribeToChannelRewardUpdateEvents
           (broadcaster : UserIdResolvable)
           (transport : HelixEventSubTransportOptions) : Call :=
  createSubscription "channel.channel_points_custom_reward.update" "1"
    (createEventSubBroadcasterCondition broadcaster)
    transport (Some broadcaster)
    (Some ["channel:read:redemptions"; "channel:manage:redemptions"]) None.

Definition subscribeToChannelRewardUpdateEventsForReward
           (broadcaster : UserIdResolvable)
           (rewardId : string)
           (transport : HelixEventSubTransportOptions) : Call :=
  createSubscription "channel.channel_points_custom_reward.update" "1"
    (createEventSubRewardCondition broadcaster rewardId)
    transport (Some broadcaster)
    (Some ["channel:read:redemptions"; "channel:manage:redemptions"]) None.

Definition subscribeToChannelRewardRemoveEvents
           (broadcaster : UserIdResolvable)
           (transport : HelixEventSubTransportOptions) : Call :=
  createSubscription "channel.channel_points_custom_reward.remove" "1"
    (createEventSubBroadcasterCondition broadcaster)
    transport (Some broadcaster)
    (Some ["channel:read:redemptions"; "channel:manage:redemptions"]) None.

Definition subscribeToChannelRewardRemoveEventsForReward
           (broadcaster : UserIdResolvable)
           (rewardId : string)
           (transport : HelixEventSubTransportOptions) : Call :=
  createSubscription "channel.channel_points_custom_reward.remove" "1"
    (createEventSubRewardCondition broadcaster rewardId)
    transport (Some broadcaster)
    (Some ["channel:read:redemptions"; "channel:manage:redemptions"]) None.

Definition subscribeToChannelRedemptionAddEvents
           (broadcaster : UserIdResolvable)
           (transport : HelixEventSubTransportOptions) : Call :=
  createSubscription "channel.channel_points_custom_reward_redemption.add" "1"
    (createEventSubBroadcasterCondition broadcaster)
    transport (Some broadcaster)
    (Some ["channel:read:redemptions"; "channel:manage:redemptions"]) None.

Definition subscribeToChannelRedemptionAddEventsForReward
           (broadcaster : UserIdResolvable)
           (rewardId : string)
           (transport : HelixEventSubTransportOptions) : Call :=
  createSubscription "channel.channel_points_custom_reward_redemption.add" "1"
    (createEventSubRewardCondition broadcaster rewardId)
    transport (Some broadcaster)
    (Some ["channel:read:redemptions"; "channel:manage:redemptions"]) None.

Definition subscribeToChannelRedemptionUpdateEvents
           (broadcaster : UserIdResolvable)
           (transport : HelixEventSubTransportOptions) : Call :=
  createSubscription "channel.channel_points_custom_reward_redemption.update" "1"
    (createEventSubBroadcasterCondition broadcaster)
    transport (Some broadcaster)
    (Some ["channel:read:redemptions"; "channel:manage:redemptions"]) None.

Definition subscribeToChannelRedemptionUpdateEventsForReward
           (broadcaster : UserIdResolvable)
           (rewardId : string)
           (transport : HelixEventSubTransportOptions) : Call :=
  createSubscription "channel.channel_points_custom_reward_redemption.update" "1"
    (createEventSubRewardCondition broadcaster rewardId)
    transport (Some broadcaster)
    (Some ["channel:read:redemptions"; "channel:manage:redemptions"]) None.

Definition subscribeToChannelPollBeginEvents
           (broadcaster : UserIdResolvable)
           (transport : HelixEventSubTransportOptions) : Call :=
  createSubscription "channel.poll.begin" "1"
    (createEventSubBroadcasterCondition broadcaster)
    transport (Some broadcaster)
    (Some ["channel:read:polls"; "channel:manage:polls"]) None.

Definition subscribeToChannelPollProgressEvents
           (broadcaster : UserIdResolvable)
           (transport : HelixEventSubTransportOptions) : Call :=
  createSubscription "channel.poll.progress" "1"
    (createEventSubBroadcasterCondition broadcaster)
    transport (Some broadcaster)
    (Some ["channel:read:polls"; "channel:manage:polls"]) None.

Definition subscribeToChannelPollEndEvents
           (broadcaster : UserIdResolvable)
           (transport : HelixEventSubTransportOptions) : Call :=
  createSubscription "channel.poll.end" "1"
    (createEventSubBroadcasterCondition broadcaster)
    transport (Some broadcaster)
    (Some ["channel:read:polls"; "channel:manage:polls"]) None.

Definition subscribeToChannelPredictionBeginEvents
           (broadcaster : UserIdResolvable)
           (transport : HelixEventSubTransportOptions) : Call :=
  createSubscription "channel.prediction.begin" "1"
    (createEventSubBroadcasterCondition broadcaster)
    transport (Some broadcaster)
    (Some ["channel:read:predictions"; "channel:manage:predictions"]) None.

Definition subscribeToChannelPredictionProgressEvents
           (broadcaster : UserIdResolvable)
           (transport : HelixEventSubTransportOptions) : Call :=
  createSubscription "channel.prediction.progress" "1"
    (createEventSubBroadcasterCondition broadcaster)
    transport (Some broadcaster)
    (Some ["channel:read:predictions"; "channel:manage:predictions"]) None.

Definition subscribeToChannelPredictionLockEvents
           (broadcaster : UserIdResolvable)
           (transport : HelixEventSubTransportOptions) : Call :=
  createSubscription "channel.prediction.lock" "1"
    (createEventSubBroadcasterCondition broadcaster)
    transport (Some broadcaster)
    (Some ["channel:read:predictions"; "channel:manage:predictions"]) None.

Definition subscribeToChannelPredictionEndEvents
           (broadcaster : UserIdResolvable)
           (transport : HelixEventSubTransportOptions) : Call :=
  createSubscription "channel.prediction.end" "1"
    (createEventSubBroadcasterCondition broadcaster)
    transport (Some broadcaster)
    (Some ["channel:read:predictions"; "channel:manage:predictions"]) None.

Definition subscribeToChannelGoalBeginEvents
           (broadcaster : UserIdResolvable)
           (transport : HelixEventSubTransportOptions) : Call :=
  createSubscription "channel.goal.begin" "1"
    (createEventSubBroadcasterCondition broadcaster)
    transport (Some broadcaster)
    (Some ["channel:read:goals"]) None.

Definition subscribeToChannelGoalProgressEvents
           (broadcaster : UserIdResolvable)
           (transport : HelixEventSubTransportOptions) : Call :=
  createSubscription "channel.goal.progress" "1"
    (createEventSubBroadcasterCondition broadcaster)
    transport (Some broadcaster)
    (Some ["channel:read:goals"]) None.

Definition subscribeToChannelGoalEndEvents
           (broadcaster : UserIdResolvable)
           (transport : HelixEventSubTransportOptions) : Call :=
  createSubscription "channel.goal.end" "1"
    (createEventSubBroadcasterCondition broadcaster)
    transport (Some broadcaster)
    (Some ["channel:read:goals"]) None.

Definition subscribeToChannelHypeTrainBeginEvents
           (broadcaster : UserIdResolvable)
           (transport : HelixEventSubTransportOptions) : Call :=
  createSubscription "channel.hype_train.begin" "1"
    (createEventSubBroadcasterCondition broadcaster)
    transport (Some broadcaster)
    (Some ["channel:read:hype_train"]) None.

Definition subscribeToChannelHypeTrainProgressEvents
           (broadcaster : UserIdResolvable)
           (transport : HelixEventSubTransportOptions) : Call :=
  createSubscription "channel.hype_train.progress" "1"
    (createEventSubBroadcasterCondition broadcaster)
    transport (Some broadcaster)
    (Some ["channel:read:hype_train"]) None.

Definition subscribeToChannelHypeTrainEndEvents
           (broadcaster : UserIdResolvable)
           (transport : HelixEventSubTransportOptions) : Call :=
  createSubscription "channel.hype_train.end" "1"
    (createEventSubBroadcasterCondition broadcaster)
    transport (Some broadcaster)
    (Some ["channel:read:hype_train"]) None.

Definition subscribeToChannelShoutoutCreateEvents
           (broadcaster : UserIdResolvable)
           (moderator : UserIdResolvable)
           (transport : HelixEventSubTransportOptions) : Call :=
  createSubscription "channel.shoutout.create" "1"
    (createEventSubModeratorCondition broadcaster moderator)
    transport (Some broadcaster)
    (Some ["moderator:read:shoutouts"; "moderator:manage:shoutouts"]) None.

Definition subscribeToChannelShoutoutReceiveEvents
           (broadcaster : UserIdResolvable)
           (moderator : UserIdResolvable)
           (transport : HelixEventSubTransportOptions) : Call :=
  createSubscription "channel.shoutout.receive" "1"
    (createEventSubModeratorCondition broadcaster moderator)
    transport (Some broadcaster)
    (Some ["moderator:read:shoutouts"; "moderator:manage:shoutouts"]) None.

Definition subscribeToExtensionBitsTransactionCreateEvents
           (clientId : string)
           (transport : HelixEventSubTransportOptions) : Call :=
  createSubscription "extension.bits_transaction.create" "1"
    (createSingleKeyQuery "extension_client_id" clientId)
    transport None
    None None.

Definition subscribeToUserAuthorizationGrantEvents
           (clientId : string)
           (transport : HelixEventSubTransportOptions) : Call :=
  createSubscription "user.authorization.grant" "1"
    (createSingleKeyQuery "client_id" clientId)
    transport None
    None None.

Definition subscribeToUserAuthorizationRevokeEvents
           (clientId : string)
           (transport : HelixEventSubTransportOptions) : Call :=
  createSubscription "user.authorization.revoke" "1"
    (createSingleKeyQuery "client_id" clientId)
    transport None
    None None.

Definition subscribeToUserUpdateEvents
           (user : UserIdResolvable)
           (transport : HelixEventSubTransportOptions)
           (withEmail : option bool) : Call :=
  createSubscription "user.update" "1"
    (createSingleKeyQuery "user_id" (extractUserId user))
    transport (Some user)
    (match withEmail with
     | Some true => Some ["user:read:email"]
     | _ => None
     end) None.

Definition subscribeToDropEntitlementGrantEvents
           (filter : HelixEventSubDropEntitlementGrantFilter)
           (transport : HelixEventSubTransportOptions) : Call :=
  createSubscription "drop.entitlement.grant" "1"
    (createEventSubDropEntitlementGrantCondition filter)
    transport None
    None (Some true).

(** Every subscribing method, called, under its name. *)
Definition subscriptions (broadcaster moderator user : UserIdResolvable) (rewardId clientId : string)
           (withEmail : option bool) (filter : HelixEventSubDropEntitlementGrantFilter)
           (transport : HelixEventSubTransportOptions)
  : list (string * Call) :=
  [("subscribeToStreamOnlineEvents",
    subscribeToStreamOnlineEvents broadcaster transport);
   ("subscribeToStreamOfflineEvents",
    subscribeToStreamOfflineEvents broadcaster transport);
   ("subscribeToChannelUpdateEvents",
    subscribeToChannelUpdateEvents broadcaster transport);
   ("subscribeToChannelFollowEvents",
    subscribeToChannelFollowEvents broadcaster transport);
   ("subscribeToChannelFollowEventsV2",
    subscribeToChannelFollowEventsV2 broadcaster moderator transport);
   ("subscribeToChannelSubscriptionEvents",
    subscribeToChannelSubscriptionEvents broadcaster transport);
   ("subscribeToChannelSubscriptionGiftEvents",
    subscribeToChannelSubscriptionGiftEvents broadcaster transport);
   ("subscribeToChannelSubscriptionMessageEvents",
    subscribeToChannelSubscriptionMessageEvents broadcaster transport);
   ("subscribeToChannelSubscriptionEndEvents",
    subscribeToChannelSubscriptionEndEvents broadcaster transport);
   ("subscribeToChannelCheerEvents",
    subscribeToChannelCheerEvents broadcaster transport);
   ("subscribeToChannelCharityCampaignStartEvents",
    subscribeToChannelCharityCampaignStartEvents broadcaster transport);
   ("subscribeToChannelCharityCampaignStopEvents",
    subscribeToChannelCharityCampaignStopEvents broadcaster transport);
   ("subscribeToChannelCharityDonationEvents",
    subscribeToChannelCharityDonationEvents broadcaster transport);
   ("subscribeToChannelCharityCampaignProgressEvents",
    subscribeToChannelCharityCampaignProgressEvents broadcaster transport);
   ("subscribeToChannelBanEvents",
    subscribeToChannelBanEvents broadcaster transport);
   ("subscribeToChannelUnbanEvents",
    subscribeToChannelUnbanEvents broadcaster transport);
   ("subscribeToChannelShieldModeBeginEvents",
    subscribeToChannelShieldModeBeginEvents broadcaster moderator transport);
   ("subscribeToChannelShieldModeEndEvents",
    subscribeToChannelShieldModeEndEvents broadcaster moderator transport);
   ("subscribeToChannelModeratorAddEvents",
    subscribeToChannelModeratorAddEvents broadcaster transport);
   ("subscribeToChannelModeratorRemoveEvents",
    subscribeToChannelModeratorRemoveEvents broadcaster transport);
   ("subscribeToChannelRaidEventsFrom",
    subscribeToChannelRaidEventsFrom broadcaster transport);
   ("subscribeToChannelRaidEventsTo",
    subscribeToChannelRaidEventsTo broadcaster transport);
   ("subscribeToChannelRewardAddEvents",
    subscribeToChannelRewardAddEvents broadcaster transport);
   ("subscribeToChannelRewardUpdateEvents",
    subscribeToChannelRewardUpdateEvents broadcaster transport);
   ("subscribeToChannelRewardUpdateEventsForReward",
    subscribeToChannelRewardUpdateEventsForReward broadcaster rewardId transport);
   ("subscribeToChannelRewardRemoveEvents",
    subscribeToChannelRewardRemoveEvents broadcaster transport);
   ("subscribeToChannelRewardRemoveEventsForReward",
    subscribeToChannelRewardRemoveEventsForReward broadcaster rewardId transport);
   ("subscribeToChannelRedemptionAddEvents",
    subscribeToChannelRedemptionAddEvents broadcaster transport);
   ("subscribeToChannelRedemptionAddEventsForReward",
    subscribeToChannelRedemptionAddEventsForReward broadcaster rewardId transport);
   ("subscribeToChannelRedemptionUpdateEvents",
    subscribeToChannelRedemptionUpdateEvents broadcaster transport);
   ("subscribeToChannelRedemptionUpdateEventsForReward",
    subscribeToChannelRedemptionUpdateEventsForReward broadcaster rewardId transport);
   ("subscribeToChannelPollBeginEvents",
    subscribeToChannelPollBeginEvents broadcaster transport);
   ("subscribeToChannelPollProgressEvents",
    subscribeToChannelPollProgressEvents broadcaster transport);
   ("subscribeToChannelPollEndEvents",
    subscribeToChannelPollEndEvents broadcaster transport);
   ("subscribeToChannelPredictionBeginEvents",
    subscribeToChannelPredictionBeginEvents broadcaster transport);
   ("subscribeToChannelPredictionProgressEvents",
    subscribeToChannelPredictionProgressEvents broadcaster transport);
   ("subscribeToChannelPredictionLockEvents",
    subscribeToChannelPredictionLockEvents broadcaster transport);
   ("subscribeToChannelPredictionEndEvents",
    subscribeToChannelPredictionEndEvents broadcaster transport);
   ("subscribeToChannelGoalBeginEvents",
    subscribeToChannelGoalBeginEvents broadcaster transport);
   ("subscribeToChannelGoalProgressEvents",
    subscribeToChannelGoalProgressEvents broadcaster transport);
   ("subscribeToChannelGoalEndEvents",
    subscribeToChannelGoalEndEvents broadcaster transport);
   ("subscribeToChannelHypeTrainBeginEvents",
    subscribeToChannelHypeTrainBeginEvents broadcaster transport);
   ("subscribeToChannelHypeTrainProgressEvents",
    subscribeToChannelHypeTrainProgressEvents broadcaster transport);
   ("subscribeToChannelHypeTrainEndEvents",
    subscribeToChannelHypeTrainEndEvents broadcaster transport);
   ("subscribeToChannelShoutoutCreateEvents",
    subscribeToChannelShoutoutCreateEvents broadcaster moderator transport);
   ("subscribeToChannelShoutoutReceiveEvents",
    subscribeToChannelShoutoutReceiveEvents broadcaster moderator transport);
   ("subscribeToExtensionBitsTransactionCreateEvents",
    subscribeToExtensionBitsTransactionCreateEvents clientId transport);
   ("subscribeToUserAuthorizationGrantEvents",
    subscribeToUserAuthorizationGrantEvents clientId transport);
   ("subscribeToUserAuthorizationRevokeEvents",
    subscribeToUserAuthorizationRevokeEvents clientId transport);
   ("subscribeToUserUpdateEvents",
    subscribeToUserUpdateEvents user transport withEmail);
   ("subscribeToDropEntitlementGrantEvents",
    subscribeToDropEntitlementGrantEvents filter transport)].

(** The methods that hand the broadcaster to [createSubscription] as
    the user. *)
Definition broadcasterSubscriptions (broadcaster moderator : UserIdResolvable) (rewardId : string)
           (transport : HelixEventSubTransportOptions)
  : list (string * Call) :=
  [("subscribeToStreamOnlineEvents",
    subscribeToStreamOnlineEvents broadcaster transport);
   ("subscribeToStreamOfflineEvents",
    subscribeToStreamOfflineEvents broadcaster transport);
   ("subscribeToChannelUpdateEvents",
    subscribeToChannelUpdateEvents broadcaster transport);
   ("subscribeToChannelFollowEvents",
    subscribeToChannelFollowEvents broadcaster transport);
   ("subscribeToChannelSubscriptionEvents",
    subscribeToChannelSubscriptionEvents broadcaster transport);
   ("subscribeToChannelSubscriptionGiftEvents",
    subscribeToChannelSubscriptionGiftEvents broadcaster transport);
   ("subscribeToChannelSubscriptionMessageEvents",
    subscribeToChannelSubscriptionMessageEvents broadcaster transport);
   ("subscribeToChannelSubscriptionEndEvents",
    subscribeToChannelSubscriptionEndEvents broadcaster transport);
   ("subscribeToChannelCheerEvents",
    subscribeToChannelCheerEvents broadcaster transport);
   ("subscribeToChannelCharityCampaignStartEvents",
    subscribeToChannelCharityCampaignStartEvents broadcaster transport);
   ("subscribeToChannelCharityCampaignStopEvents",
    subscribeToChannelCharityCampaignStopEvents broadcaster transport);
   ("subscribeToChannelCharityDonationEvents",
    subscribeToChannelCharityDonationEvents broadcaster transport);
   ("subscribeToChannelCharityCampaignProgressEvents",
    subscribeToChannelCharityCampaignProgressEvents broadcaster transport);
   ("subscribeToChannelBanEvents",
    subscribeToChannelBanEvents broadcaster transport);
   ("subscribeToChannelUnbanEvents",
    subscribeToChannelUnbanEvents broadcaster transport);
   ("subscribeToChannelShieldModeBeginEvents",
    subscribeToChannelShieldModeBeginEvents broadcaster moderator transport);
   ("subscribeToChannelShieldModeEndEvents",
    subscribeToChannelShieldModeEndEvents broadcaster moderator transport);
   ("subscribeToChannelModeratorAddEvents",
    subscribeToChannelModeratorAddEvents broadcaster transport);
   ("subscribeToChannelModeratorRemoveEvents",
    subscribeToChannelModeratorRemoveEvents broadcaster transport);
   ("subscribeToChannelRaidEventsFrom",
    subscribeToChannelRaidEventsFrom broadcaster transport);
   ("subscribeToChannelRaidEventsTo",
    subscribeToChannelRaidEventsTo broadcaster transport);
   ("subscribeToChannelRewardAddEvents",
    subscribeToChannelRewardAddEvents broadcaster transport);
   ("subscribeToChannelRewardUpdateEvents",
    subscribeToChannelRewardUpdateEvents broadcaster transport);
   ("subscribeToChannelRewardUpdateEventsForReward",
    subscribeToChannelRewardUpdateEventsForReward broadcaster rewardId transport);
   ("subscribeToChannelRewardRemoveEvents",
    subscribeToChannelRewardRemoveEvents broadcaster transport);
   ("subscribeToChannelRewardRemoveEventsForReward",
    subscribeToChannelRewardRemoveEventsForReward broadcaster rewardId transport);
   ("subscribeToChannelRedemptionAddEvents",
    subscribeToChannelRedemptionAddEvents broadcaster transport);
   ("subscribeToChannelRedemptionAddEventsForReward",
    subscribeToChannelRedemptionAddEventsForReward broadcaster rewardId transport);
   ("subscribeToChannelRedemptionUpdateEvents",
    subscribeToChannelRedemptionUpdateEvents broadcaster transport);
   ("subscribeToChannelRedemptionUpdateEventsForReward",
    subscribeToChannelRedemptionUpdateEventsForReward broadcaster rewardId transport);
   ("subscribeToChannelPollBeginEvents",
    subscribeToChannelPollBeginEvents broadcaster transport);
   ("subscribeToChannelPollProgressEvents",
    subscribeToChannelPollProgressEvents broadcaster transport);
   ("subscribeToChannelPollEndEvents",
    subscribeToChannelPollEndEvents broadcaster transport);
   ("subscribeToChannelPredictionBeginEvents",
    subscribeToChannelPredictionBeginEvents broadcaster transport);
   ("subscribeToChannelPredictionProgressEvents",
    subscribeToChannelPredictionProgressEvents broadcaster transport);
   ("subscribeToChannelPredictionLockEvents",
    subscribeToChannelPredictionLockEvents broadcaster transport);
   ("subscribeToChannelPredictionEndEvents",
    subscribeToChannelPredictionEndEvents broadcaster transport);
   ("subscribeToChannelGoalBeginEvents",
    subscribeToChannelGoalBeginEvents broadcaster transport);
   ("subscribeToChannelGoalProgressEvents",
    subscribeToChannelGoalProgressEvents broadcaster transport);
   ("subscribeToChannelGoalEndEvents",
    subscribeToChannelGoalEndEvents broadcaster transport);
   ("subscribeToChannelHypeTrainBeginEvents",
    subscribeToChannelHypeTrainBeginEvents broadcaster transport);
   ("subscribeToChannelHypeTrainProgressEvents",
    subscribeToChannelHypeTrainProgressEvents broadcaster transport);
   ("subscribeToChannelHypeTrainEndEvents",
    subscribeToChannelHypeTrainEndEvents broadcaster transport);
   ("subscribeToChannelShoutoutCreateEvents",
    subscribeToChannelShoutoutCreateEvents broadcaster moderator transport);
   ("subscribeToChannelShoutoutReceiveEvents",
    subscribeToChannelShoutoutReceiveEvents broadcaster moderator transport)].

(** *** Vocabulary of the statements about these methods *)

(** A call that issued the one request [options] and returned what the
    platform answered to it. *)
Definition sends (c : Call) (options : ApiCallOptions) : Prop :=
  EventSub.issued c = [options] /\
  EventSub.returned c
  = (result <- callApi options ;; Normal (nth_error result 0)).

(** A request that creates a subscription. *)
Definition posts (options : ApiCallOptions) : Prop :=
  EventSub.call_type _ _ options = "helix" /\
  EventSub.url _ _ options = "eventsub/subscriptions" /\
  EventSub.call_method _ _ options = "POST".

(** A call that was refused by the guard of [createSubscription]. *)
Definition refused (transport : HelixEventSubTransportOptions) (c : Call)
  : Prop :=
  EventSub.guardFired method transport c.

End Methods.

(** A client to run the methods with: user ids and transports are
    strings, a condition is the list of its keys and values, and the
    platform answers every request with one subscription, named after
    the type and version asked for. *)
Definition sampleClient : Client :=
  {| UserIdResolvable := string;
     toBoolean := fun userId => negb (userId =? "");
     extractUserId := fun userId => userId;
     mapOptional := fun user extract => option_map extract user;
     Condition := list (string * string);
     HelixEventSubTransportOptions := string;
     method := fun transportMethod => transportMethod;
     HelixEventSubSubscriptionData := string;
     callApi := fun options =>
       Normal [(EventSub.body_type _ _ (EventSub.jsonBody _ _ options)
                ++ "@"
                ++ EventSub.body_version _ _ (EventSub.jsonBody _ _ options))%string];
     createEventSubBroadcasterCondition := fun broadcaster =>
       [("broadcaster_user_id", broadcaster)];
     createEventSubModeratorCondition := fun broadcaster moderator =>
       [("broadcaster_user_id", broadcaster); ("moderator_user_id", moderator)];
     createEventSubRewardCondition := fun broadcaster rewardId =>
       [("broadcaster_user_id", broadcaster); ("reward_id", rewardId)];
     createSingleKeyQuery := fun key value => [(key, value)];
     HelixEventSubDropEntitlementGrantFilter := list (string * string);
     createEventSubDropEntitlementGrantCondition := fun filter => filter |}.

End HelixEventSubApi.

(** * Properties *)

(** ** The parser on the inputs of its table of edge cases *)

Example parse_one_emote :
  parseEmoteOffsets (Some "25:0-4,12-16") = Normal [("25", ["0-4"; "12-16"])].
Proof. reflexivity. Qed.

Example parse_two_emotes :
  parseEmoteOffsets (Some "25:0-4/1902:6-10")
  = Normal [("25", ["0-4"]); ("1902", ["6-10"])].
Proof. reflexivity. Qed.

Example parse_no_colon : parseEmoteOffsets (Some "25") = Normal [].
Proof. reflexivity. Qed.

Example parse_empty_placements : parseEmoteOffsets (Some "25:") = Normal [].
Proof. reflexivity. Qed.

Example parse_duplicate_id :
  parseEmoteOffsets (Some "25:0-4/25:6-10") = Normal [("25", ["6-10"])].
Proof. reflexivity. Qed.

(** A duplicate keeps the position of the first insertion of its key. *)
Example parse_duplicate_position :
  parseEmoteOffsets (Some "25:0-4/30:1-2/25:6-10")
  = Normal [("25", ["6-10"]); ("30", ["1-2"])].
Proof. reflexivity. Qed.

(** A dropped entry does not overwrite an earlier one with its id. *)
Example parse_dropped_duplicate :
  parseEmoteOffsets (Some "25:0-4/25:") = Normal [("25", ["0-4"])].
Proof. reflexivity. Qed.

(** An [undefined] receiver is what would throw. *)
Example split_undefined :
  exists e, JS.String_split None ":" (Some 2) = Throw e.
Proof. eexists. reflexivity. Qed.

(** ** Strings: [split], [join] and [occurs] *)

Section StringFacts.

Import JS.

Lemma split_free (sep : ascii) (s : string) :
  free sep s -> split sep s = [s].
Proof.
  unfold free. induction s as [|c s IH]; simpl; intros H; [reflexivity|].
  apply orb_false_iff in H as [Hc Hs].
  rewrite Hc, (IH Hs). reflexivity.
Qed.

Lemma split_app_sep (sep : ascii) (a b : string) :
  free sep a -> split sep (a ++ String sep b) = a :: split sep b.
Proof.
  unfold free. induction a as [|c a IH]; simpl; intros H.
  - rewrite Ascii.eqb_refl. reflexivity.
  - apply orb_false_iff in H as [Hc Ha].
    rewrite Hc, (IH Ha). reflexivity.
Qed.

Lemma split_join (sep : ascii) (pieces : list string) :
  pieces <> [] -> Forall (free sep) pieces ->
  split sep (join sep pieces) = pieces.
Proof.
  induction pieces as [|p ps IH]; intros Hne Hfree; [congruence|].
  inversion Hfree as [|? ? Hp Hps]; subst.
  destruct ps as [|q ps].
  - simpl. apply split_free, Hp.
  - change (join sep (p :: q :: ps))
      with (p ++ String sep (join sep (q :: ps)))%string.
    rewrite (split_app_sep _ _ _ Hp), IH; [reflexivity|discriminate|assumption].
Qed.

Lemma occurs_app (c : ascii) (a b : string) :
  occurs c (a ++ b) = occurs c a || occurs c b.
Proof.
  induction a as [|x a IH]; simpl; [reflexivity|].
  rewrite IH, orb_assoc. reflexivity.
Qed.

Lemma free_join (c sep : ascii) (pieces : list string) :
  c <> sep -> Forall (free c) pieces -> free c (join sep pieces).
Proof.
  intros Hc. unfold free.
  induction pieces as [|p ps IH]; intros Hfree; [reflexivity|].
  inversion Hfree as [|? ? Hp Hps]; subst.
  destruct ps as [|q ps]; [exact Hp|].
  change (join sep (p :: q :: ps))
    with (p ++ String sep (join sep (q :: ps)))%string.
  rewrite occurs_app, Hp. cbn [occurs orb].
  rewrite (IH Hps), orb_false_r.
  destruct (Ascii.eqb_spec sep c) as [->|_]; [congruence|reflexivity].
Qed.

End StringFacts.

(** ** The [Map] *)

Section MapFacts.

Import JSMap.

Context {V : Type}.
Implicit Types (m : JSMap.t V) (k : string) (v : V).

Lemma get_set_eq k v m : get k (set k v m) = Some v.
Proof.
  induction m as [|[k' v'] m IH]; simpl.
  - rewrite String.eqb_refl. reflexivity.
  - destruct (k' =? k) eqn:E; simpl; rewrite E; [reflexivity|exact IH].
Qed.

Lemma get_set_neq k k' v m : k' <> k -> get k' (set k v m) = get k' m.
Proof.
  intros Hne. induction m as [|[k0 v0] m IH]; simpl.
  - destruct (String.eqb_spec k k'); [congruence|reflexivity].
  - destruct (String.eqb_spec k0 k) as [->|Hk]; simpl.
    + destruct (String.eqb_spec k k'); [congruence|reflexivity].
    + rewrite IH. reflexivity.
Qed.

Lemma keys_set k v m k' : In k' (keys (set k v m)) <-> k' = k \/ In k' (keys m).
Proof.
  unfold keys. induction m as [|[k0 v0] m IH]; simpl.
  - intuition.
  - destruct (String.eqb_spec k0 k) as [->|Hk]; simpl.
    + intuition.
    + rewrite IH. intuition.
Qed.

Lemma get_None k m : get k m = None <-> ~ In k (keys m).
Proof.
  unfold keys. induction m as [|[k0 v0] m IH]; simpl.
  - intuition.
  - destruct (String.eqb_spec k0 k) as [->|Hk].
    + split; [discriminate|]. intros H. exfalso. apply H. now left.
    + rewrite IH. intuition.
Qed.

Lemma get_app k m m' :
  get k (m ++ m') = match get k m with
                    | Some v => Some v
                    | None => get k m'
                    end.
Proof.
  induction m as [|[k0 v0] m IH]; simpl; [reflexivity|].
  destruct (k0 =? k); [reflexivity|exact IH].
Qed.

Lemma set_fresh k v m : ~ In k (keys m) -> set k v m = m ++ [(k, v)].
Proof.
  unfold keys. induction m as [|[k0 v0] m IH]; simpl; intros H; [reflexivity|].
  destruct (String.eqb_spec k0 k) as [->|Hk].
  - exfalso. apply H. now left.
  - rewrite IH; [reflexivity|]. intros Hin. apply H. now right.
Qed.

(** The value of a key after [setAll]: the last entry given for it, or
    else what the map held. *)
Lemma get_setAll k (entries : list (string * V)) m :
  get k (setAll entries m) = match get k (rev entries) with
                             | Some v => Some v
                             | None => get k m
                             end.
Proof.
  unfold setAll. revert m.
  induction entries as [|[k0 v0] entries IH]; intros m; simpl; [reflexivity|].
  rewrite IH, get_app. simpl.
  destruct (get k (rev entries)); [reflexivity|].
  destruct (String.eqb_spec k0 k) as [->|Hk].
  - apply get_set_eq.
  - apply get_set_neq. congruence.
Qed.

Lemma keys_setAll k (entries : list (string * V)) m :
  In k (keys (setAll entries m)) <-> In k (map fst entries) \/ In k (keys m).
Proof.
  unfold setAll. revert m.
  induction entries as [|[k0 v0] entries IH]; intros m; simpl.
  - intuition.
  - rewrite IH, keys_set. intuition.
Qed.

Lemma setAll_fresh (entries : list (string * V)) m :
  NoDup (keys m ++ map fst entries) -> setAll entries m = m ++ entries.
Proof.
  unfold setAll. revert m.
  induction entries as [|[k0 v0] entries IH]; intros m Hnd; simpl.
  - now rewrite app_nil_r.
  - simpl in Hnd. rewrite set_fresh.
    + rewrite IH.
      * rewrite <- app_assoc. reflexivity.
      * unfold keys in *. rewrite map_app, <- app_assoc. exact Hnd.
    + apply NoDup_remove_2 in Hnd. intros Hin. apply Hnd.
      apply in_or_app. now left.
Qed.

End MapFacts.

(** ** The parser, without its completions *)

Lemma parseEmote_entryOf (emote : string) :
  parseEmote emote = Normal (entryOf emote).
Proof.
  unfold parseEmote, entryOf. simpl.
  destruct (JS.split ":" emote) as [|emoteId [|placements rest]];
    simpl; try reflexivity.
  destruct (placements =? ""); reflexivity.
Qed.

Lemma mapM_parseEmote (pieces : list string) :
  Completion.mapM parseEmote pieces = Normal (map entryOf pieces).
Proof.
  induction pieces as [|p ps IH]; simpl; [reflexivity|].
  rewrite parseEmote_entryOf, IH. reflexivity.
Qed.

Lemma parseEmoteOffsets_entries (s : string) :
  parseEmoteOffsets (Some s)
  = Normal (JSMap.new (dropNull (map entryOf (JS.split "/" s)))).
Proof.
  unfold parseEmoteOffsets. simpl JS.truthy.
  destruct (String.eqb_spec s "") as [->|Hs]; simpl; [reflexivity|].
  rewrite mapM_parseEmote. reflexivity.
Qed.

Lemma dropNull_app {A : Type} (l l' : list (option A)) :
  dropNull (l ++ l') = dropNull l ++ dropNull l'.
Proof.
  induction l as [|[a|] l IH]; simpl; [reflexivity| |exact IH].
  now rewrite IH.
Qed.

(** The entries read off a joined list of pieces are those of the
    pieces; the empty list is written as the empty string, which holds
    no entry. *)
Lemma entries_join (pieces : list string) :
  Forall (free "/") pieces ->
  dropNull (map entryOf (JS.split "/" (JS.join "/" pieces)))
  = dropNull (map entryOf pieces).
Proof.
  intros Hfree. destruct pieces as [|p ps]; [reflexivity|].
  rewrite split_join; [reflexivity|discriminate|assumption].
Qed.

Lemma split_pieces_free (sep : ascii) (s : string) :
  Forall (free sep) (JS.split sep s).
Proof.
  induction s as [|c s IH]; simpl.
  - constructor; [reflexivity|constructor].
  - destruct (Ascii.eqb c sep) eqn:E.
    + constructor; [reflexivity|exact IH].
    + destruct (JS.split sep s) as [|piece pieces].
      * constructor; [|constructor]. unfold free. simpl. now rewrite E.
      * inversion IH as [|? ? Hp Hps]; subst.
        constructor; [|exact Hps].
        unfold free in *. simpl. now rewrite E, Hp.
Qed.

Lemma free_app (c : ascii) (a b : string) :
  free c (a ++ b) <-> free c a /\ free c b.
Proof. unfold free. rewrite occurs_app. apply orb_false_iff. Qed.

Lemma free_cons (c x : ascii) (s : string) :
  free c (String x s) <-> x <> c /\ free c s.
Proof.
  unfold free. simpl. rewrite orb_false_iff.
  destruct (Ascii.eqb_spec x c); intuition congruence.
Qed.

Lemma join_not_empty (sep : ascii) (pieces : list string) :
  JS.join sep pieces <> "" -> pieces <> [].
Proof. destruct pieces; [intros H; now contradict H|discriminate]. Qed.

(** *** Reading back a well-formed entry *)

Lemma free_renderEmote (e : string * list string) :
  wellFormedEmote e -> free "/" (renderEmote e).
Proof.
  intros (Hid & _ & Hps & _). unfold renderEmote.
  apply free_app. split; [exact Hid|].
  apply free_cons. split; [discriminate|].
  apply free_join; [discriminate|].
  eapply Forall_impl; [|exact Hps]. now intros p (H & _).
Qed.

Lemma entryOf_renderEmote (e : string * list string) :
  wellFormedEmote e -> entryOf (renderEmote e) = Some e.
Proof.
  destruct e as [emoteId ps]. intros (_ & Hid & Hps & Hne). simpl in *.
  unfold entryOf, renderEmote. simpl fst. simpl snd.
  rewrite split_app_sep by exact Hid.
  rewrite split_free.
  - destruct (String.eqb_spec (JS.join "," ps) "") as [E|_]; [contradiction|].
    rewrite split_join; [reflexivity|exact (join_not_empty _ _ Hne)|].
    eapply Forall_impl; [|exact Hps]. now intros p (_ & _ & H).
  - apply free_join; [discriminate|].
    eapply Forall_impl; [|exact Hps]. now intros p (_ & H & _).
Qed.

Lemma entries_renderEmotes (es : list (string * list string)) :
  Forall wellFormedEmote es ->
  dropNull (map entryOf (JS.split "/" (renderEmotes es))) = es.
Proof.
  intros Hwf. unfold renderEmotes. rewrite entries_join.
  - induction Hwf as [|e es He _ IH]; simpl; [reflexivity|].
    now rewrite (entryOf_renderEmote _ He), IH.
  - induction Hwf as [|e es He _ IH]; simpl; constructor;
      [now apply free_renderEmote|exact IH].
Qed.

(** C1. For every well-formed emote tag ["id1:p1,p2/id2:p3"],
    [parseEmoteOffsets] returns a map whose keys are exactly the listed
    emote ids, each mapped to the placements listed for it, in their
    order (those of its last listing, should an id be listed twice);
    when no id is listed twice the map is the listed entries in the
    listed order.  In particular ["25:0-4,12-16/1902:6-10"] parses to
    [25 -> [0-4, 12-16]], [1902 -> [6-10]]. *)
Theorem parseEmoteOffsets_well_formed :
  (forall es : list (string * list string),
      Forall wellFormedEmote es ->
      exists m,
        parseEmoteOffsets (Some (renderEmotes es)) = Normal m /\
        (forall emoteId, In emoteId (JSMap.keys m) <-> In emoteId (map fst es)) /\
        (forall emoteId, JSMap.get emoteId m = JSMap.get emoteId (rev es)) /\
        (NoDup (map fst es) -> m = es)) /\
  parseEmoteOffsets (Some "25:0-4,12-16/1902:6-10")
  = Normal [("25", ["0-4"; "12-16"]); ("1902", ["6-10"])].
Proof.
  split; [|reflexivity].
  intros es Hwf. exists (JSMap.new es).
  rewrite parseEmoteOffsets_entries, (entries_renderEmotes _ Hwf).
  split; [reflexivity|]. unfold JSMap.new. split; [|split].
  - intros k. rewrite keys_setAll. simpl. intuition.
  - intros k. rewrite get_setAll. simpl. now destruct (JSMap.get k (rev es)).
  - intros Hnd. now rewrite setAll_fresh.
Qed.

Lemma parseEmoteOffsets_well_formed_witness :
  Forall wellFormedEmote [("25", ["0-4"; "12-16"]); ("1902", ["6-10"])] /\
  exists m,
    parseEmoteOffsets (Some "25:0-4,12-16/1902:6-10") = Normal m /\
    JSMap.keys m = ["25"; "1902"] /\
    JSMap.get "25" m = Some ["0-4"; "12-16"] /\
    JSMap.get "1902" m = Some ["6-10"].
Proof.
  assert (Hwf : Forall wellFormedEmote
                       [("25", ["0-4"; "12-16"]); ("1902", ["6-10"])]).
  { repeat constructor; discriminate. }
  split; [exact Hwf|].
  destruct (proj1 parseEmoteOffsets_well_formed _ Hwf) as (m & Hm & _ & _ & Hnd).
  exists m. split; [exact Hm|].
  rewrite Hnd; [repeat split|].
  repeat constructor; simpl; intuition discriminate.
Defined.

(** *** Dropped entries *)

Lemma entryOf_noPlacements (emote : string) :
  noPlacements emote -> entryOf emote = None.
Proof.
  unfold entryOf. intros [Hfree|(emoteId & Hfree & ->)].
  - now rewrite split_free.
  - now rewrite split_app_sep.
Qed.

Lemma In_dropNull {A : Type} (a : A) (l : list (option A)) :
  In a (dropNull l) <-> In (Some a) l.
Proof.
  induction l as [|[x|] l IH]; simpl; [tauto| |].
  - rewrite IH. split; intros [H|H]; auto; left; congruence.
  - rewrite IH. split; [auto|]. now intros [H|H].
Qed.

(** Every key of the result is the emote id of a piece that carries
    placements. *)
Lemma keys_from_pieces (pieces : list string) (k : string) :
  In k (JSMap.keys (JSMap.new (dropNull (map entryOf pieces)))) ->
  exists piece ps, In piece pieces /\ parseEmote piece = Normal (Some (k, ps)).
Proof.
  unfold JSMap.new. rewrite keys_setAll. simpl.
  intros [Hin|[]]. apply in_map_iff in Hin as ([k' ps] & <- & Hin).
  apply In_dropNull, in_map_iff in Hin as (piece & Hpiece & Hin).
  exists piece, ps. now rewrite parseEmote_entryOf, Hpiece.
Qed.

(** C3. An entry of the input whose placements segment is absent (no
    colon) or empty (the colon ends the entry) is dropped silently: the
    parse succeeds, the entry maps to [null], the result is the one of
    the input without that entry, and every key of the result comes from
    a sibling entry. *)
Theorem parseEmoteOffsets_drops_entry
        (s : string) (pre post : list string) (emote : string) :
  JS.split "/" s = pre ++ emote :: post ->
  noPlacements emote ->
  exists m,
    parseEmoteOffsets (Some s) = Normal m /\
    parseEmote emote = Normal None /\
    parseEmoteOffsets (Some (JS.join "/" (pre ++ post))) = Normal m /\
    (forall k, In k (JSMap.keys m) ->
               exists sibling ps,
                 In sibling (pre ++ post) /\
                 parseEmote sibling = Normal (Some (k, ps))).
Proof.
  intros Hsplit Hdrop.
  pose proof (split_pieces_free "/" s) as Hfree. rewrite Hsplit in Hfree.
  assert (Hsib : Forall (free "/") (pre ++ post)).
  { apply Forall_app in Hfree as [Hpre Hpost].
    apply Forall_app. split; [exact Hpre|now inversion Hpost]. }
  assert (Hentries : dropNull (map entryOf (JS.split "/" s))
                     = dropNull (map entryOf (pre ++ post))).
  { rewrite Hsplit, !map_app, !dropNull_app. simpl.
    now rewrite (entryOf_noPlacements _ Hdrop). }
  exists (JSMap.new (dropNull (map entryOf (pre ++ post)))).
  rewrite !parseEmoteOffsets_entries, Hentries, (entries_join _ Hsib).
  rewrite parseEmote_entryOf, (entryOf_noPlacements _ Hdrop).
  repeat split. apply keys_from_pieces.
Qed.

Lemma parseEmoteOffsets_drops_entry_witness :
  noPlacements "25:" /\ noPlacements "1902" /\
  parseEmoteOffsets (Some "25:/30:0-4") = Normal [("30", ["0-4"])] /\
  parseEmoteOffsets (Some "30:0-4/1902") = Normal [("30", ["0-4"])].
Proof.
  assert (H1 : noPlacements "25:") by (right; exists "25"; now split).
  assert (H2 : noPlacements "1902") by now left.
  split; [exact H1|]. split; [exact H2|]. split.
  - destruct (parseEmoteOffsets_drops_entry "25:/30:0-4" [] ["30:0-4"] "25:"
                eq_refl H1) as (m & Hm & _ & Hsib & _).
    rewrite Hm. rewrite <- Hsib. reflexivity.
  - destruct (parseEmoteOffsets_drops_entry "30:0-4/1902" ["30:0-4"] [] "1902"
                eq_refl H2) as (m & Hm & _ & Hsib & _).
    rewrite Hm. rewrite <- Hsib. reflexivity.
Defined.

(** *** Several entries for one emote id *)

Lemma parseEmoteOffsets_last_binding
      (s : string) (pre post : list string) (emote emoteId : string)
      (ps : list string) :
  JS.split "/" s = pre ++ emote :: post ->
  entryOf emote = Some (emoteId, ps) ->
  (forall later, In later post ->
                 forall ps', entryOf later <> Some (emoteId, ps')) ->
  JSMap.get emoteId (JSMap.new (dropNull (map entryOf (JS.split "/" s))))
  = Some ps.
Proof.
  intros Hsplit Hemote Hlater.
  unfold JSMap.new. rewrite get_setAll, Hsplit, map_app, dropNull_app.
  simpl. rewrite Hemote, rev_app_distr. simpl.
  rewrite <- app_assoc, get_app.
  assert (Hnone : JSMap.get emoteId (rev (dropNull (map entryOf post))) = None).
  { apply get_None. unfold JSMap.keys. intros Hin.
    apply in_map_iff in Hin as ([k ps'] & Hk & Hin). simpl in Hk. subst k.
    apply in_rev, In_dropNull, in_map_iff in Hin as (later & Hl & Hin).
    exact (Hlater later Hin ps' Hl). }
  rewrite Hnone. simpl. now rewrite String.eqb_refl.
Qed.

(** C4, as amended.  For every input, an emote id is mapped to the
    placements of the last entry with that id whose placements segment
    is present and not empty: among the entries that are kept, later
    ones overwrite earlier ones; e.g. ["25:0-4/25:6-10"] parses to
    [25 -> [6-10]]. *)
Theorem parseEmoteOffsets_last_kept_entry_wins
        (s : string) (pre post : list string) (emote emoteId : string)
        (ps : list string) :
  JS.split "/" s = pre ++ emote :: post ->
  parseEmote emote = Normal (Some (emoteId, ps)) ->
  (forall later, In later post ->
                 forall ps', parseEmote later <> Normal (Some (emoteId, ps'))) ->
  exists m,
    parseEmoteOffsets (Some s) = Normal m /\ JSMap.get emoteId m = Some ps.
Proof.
  intros Hsplit Hemote Hlater.
  rewrite parseEmote_entryOf in Hemote. injection Hemote as Hemote.
  eexists. split; [apply parseEmoteOffsets_entries|].
  apply (parseEmoteOffsets_last_binding s pre post emote); auto.
  intros later Hin ps' Hl. apply (Hlater later Hin ps').
  now rewrite parseEmote_entryOf, Hl.
Qed.

Lemma parseEmoteOffsets_last_kept_entry_wins_witness :
  exists m,
    parseEmoteOffsets (Some "25:0-4/25:6-10") = Normal m /\
    JSMap.get "25" m = Some ["6-10"].
Proof.
  apply (parseEmoteOffsets_last_kept_entry_wins
           "25:0-4/25:6-10" ["25:0-4"] [] "25:6-10" "25" ["6-10"]).
  - reflexivity.
  - reflexivity.
  - intros later [].
Defined.

(** C4 as stated does not hold: in ["25:0-4/25:"] the last entry with
    the id [25] is ["25:"], which is dropped, and the result keeps the
    placements of the first entry. *)
Lemma lastOccurrenceWins_fails : ~ lastOccurrenceWins "25:0-4/25:".
Proof.
  intros H.
  destruct (H ["25:0-4"] "25:" [] "25" eq_refl eq_refl)
    as (m & placements & Hm & Hrender & Hget).
  - exists "25:0-4". split; [now left|reflexivity].
  - intros later [].
  - vm_compute in Hm. injection Hm as <-.
    vm_compute in Hget. injection Hget as <-.
    discriminate Hrender.
Qed.

(** On the input of the claim's own example the statement holds. *)
Example lastOccurrenceWins_example : lastOccurrenceWins "25:0-4/25:6-10".
Proof.
  intros pre emote post emoteId Hsplit Hid (earlier & Hin & _) _.
  change (JS.split "/" "25:0-4/25:6-10") with ["25:0-4"; "25:6-10"] in Hsplit.
  destruct pre as [|p0 pre]; [destruct Hin|].
  destruct pre as [|p1 pre].
  - injection Hsplit as _ <- _. subst emoteId.
    exists [("25", ["6-10"])], ["6-10"]. repeat split.
  - exfalso. injection Hsplit as _ _ Hsplit.
    now destruct pre.
Qed.

(** *** Absent and empty input *)

(** C5. On an absent input and on the empty string the parser returns
    the empty map. *)
Theorem parseEmoteOffsets_absent_or_empty :
  parseEmoteOffsets None = Normal [] /\ parseEmoteOffsets (Some "") = Normal [].
Proof. split; reflexivity. Qed.

(** *** A second colon *)

Lemma entryOf_second_colon (emoteId segment rest : string) :
  free ":" emoteId -> free ":" segment ->
  entryOf (emoteId ++ String ":" (segment ++ String ":" rest))
  = if segment =? "" then None else Some (emoteId, JS.split "," segment).
Proof.
  intros Hid Hseg. unfold entryOf.
  now rewrite (split_app_sep _ _ _ Hid), (split_app_sep _ _ _ Hseg).
Qed.

Lemma entryOf_one_colon (emoteId segment : string) :
  free ":" emoteId -> free ":" segment ->
  entryOf (emoteId ++ String ":" segment)
  = if segment =? "" then None else Some (emoteId, JS.split "," segment).
Proof.
  intros Hid Hseg. unfold entryOf.
  now rewrite (split_app_sep _ _ _ Hid), (split_free _ _ Hseg).
Qed.

(** C7. An entry with more than one colon is split in at most two
    parts: the emote id is the text before the first colon, the
    placements segment the text between the first and the second colon,
    and the text from the second colon on contributes nothing: the
    input parses as it does with that text removed; e.g.
    ["25:0-4:junk"] parses to [25 -> [0-4]]. *)
Theorem parseEmoteOffsets_second_colon
        (s : string) (pre post : list string) (emoteId segment rest : string) :
  JS.split "/" s
  = pre ++ (emoteId ++ String ":" (segment ++ String ":" rest))%string :: post ->
  free ":" emoteId -> free ":" segment ->
  parseEmote (emoteId ++ String ":" (segment ++ String ":" rest))
  = Normal (if segment =? "" then None
            else Some (emoteId, JS.split "," segment)) /\
  parseEmoteOffsets (Some s)
  = parseEmoteOffsets
      (Some (JS.join "/" (pre ++ (emoteId ++ String ":" segment)%string :: post))).
Proof.
  intros Hsplit Hid Hseg. split.
  - now rewrite parseEmote_entryOf, entryOf_second_colon.
  - pose proof (split_pieces_free "/" s) as Hfree. rewrite Hsplit in Hfree.
    rewrite !parseEmoteOffsets_entries, entries_join.
    + rewrite Hsplit, !map_app. simpl.
      now rewrite entryOf_second_colon, entryOf_one_colon.
    + apply Forall_app in Hfree as [Hpre Hpost].
      inversion Hpost as [|? ? He Hpost']; subst.
      apply Forall_app. split; [exact Hpre|]. constructor; [|exact Hpost'].
      apply free_app in He as [H1 H2]. apply free_cons in H2 as [H2 H3].
      apply free_app in H3 as [H3 _].
      apply free_app. split; [exact H1|]. now apply free_cons.
Qed.

Lemma parseEmoteOffsets_second_colon_witness :
  parseEmoteOffsets (Some "25:0-4:junk") = Normal [("25", ["0-4"])].
Proof.
  destruct (parseEmoteOffsets_second_colon
              "25:0-4:junk" [] [] "25" "0-4" "junk" eq_refl eq_refl eq_refl)
    as [_ H].
  rewrite H. reflexivity.
Defined.

(** *** Totality *)

Lemma parseEmoteOffsets_Normal (emotes : option string) :
  exists m : EmoteOffsetMap, parseEmoteOffsets emotes = Normal m.
Proof.
  destruct emotes as [s|].
  - eexists. apply parseEmoteOffsets_entries.
  - now exists [].
Qed.

(** C8. The parser is total: on every input, absent or any string, it
    returns a map and does not throw. *)
Theorem parseEmoteOffsets_total (emotes : option string) :
  exists m : EmoteOffsetMap, parseEmoteOffsets emotes = Normal m.
Proof. exact (parseEmoteOffsets_Normal emotes). Qed.

(** *** Determinism and the store *)

Section StoreFacts.

Implicit Types (h g : Store.t) (v : Store.Value) (o : Store.Object).

Lemma nth_error_extends h (x : Store.t) (r : nat) o :
  nth_error h r = Some o -> nth_error (h ++ x) r = Some o.
Proof.
  intros H. rewrite nth_error_app1; [exact H|].
  apply nth_error_Some. congruence.
Qed.

Lemma nth_error_allocated h (x : Store.t) o :
  nth_error (h ++ o :: x) (List.length h) = Some o.
Proof. rewrite nth_error_app2, Nat.sub_diag; [reflexivity|lia]. Qed.

Lemma bind_Normal {A B : Type} (c : Store.M A) (k : A -> Store.M B) h (a : A) h' :
  c h = (Normal a, h') -> Store.bind c k h = k a h'.
Proof. intros H. unfold Store.bind. now rewrite H. Qed.

Lemma elementsOf_Array h (r : nat) (elements : list Store.Value) :
  nth_error h r = Some (Store.Array elements) ->
  Store.elementsOf (Store.Ref r) h = (Normal elements, h).
Proof. intros H. unfold Store.elementsOf. now rewrite H. Qed.

Lemma represents_extends h (x : Store.t) v entry :
  Store.represents h v entry -> Store.represents (h ++ x) v entry.
Proof.
  destruct entry as [[emoteId placements]|]; simpl; [|auto].
  intros (p & a & Hv & Hp & Ha). exists p, a.
  repeat split; auto using nth_error_extends.
Qed.

(** The callback leaves what was in the store and returns a value
    that stands for the entry of the piece. *)
Lemma parseEmote_run (emote : string) g :
  exists v h',
    Store.parseEmote (Store.Str emote) g = (Normal v, h') /\
    (exists ext, h' = g ++ ext) /\
    Store.represents h' v (entryOf emote).
Proof.
  unfold Store.parseEmote, entryOf.
  erewrite bind_Normal by reflexivity.
  erewrite bind_Normal
    by (apply elementsOf_Array, nth_error_allocated).
  destruct (JS.split ":" emote) as [|emoteId [|segment rest]]; simpl.
  - do 2 eexists. split; [reflexivity|]. split; [now eexists|reflexivity].
  - do 2 eexists. split; [reflexivity|]. split; [now eexists|reflexivity].
  - destruct (segment =? ""); simpl.
    + do 2 eexists. split; [reflexivity|]. split; [now eexists|reflexivity].
    + do 2 eexists. split; [reflexivity|]. split.
      * eexists. rewrite <- !app_assoc. reflexivity.
      * do 2 eexists. split; [reflexivity|]. split.
        -- apply nth_error_allocated.
        -- apply nth_error_extends, nth_error_allocated.
Qed.

Lemma mapM_parseEmote_run (pieces : list string) g :
  exists vs h',
    Store.mapM Store.parseEmote (map Store.Str pieces) g = (Normal vs, h') /\
    (exists ext, h' = g ++ ext) /\
    Forall2 (Store.represents h') vs (map entryOf pieces).
Proof.
  revert g. induction pieces as [|piece pieces IH]; intros g; simpl.
  - exists [], g. split; [reflexivity|]. split; [|constructor].
    exists []. now rewrite app_nil_r.
  - destruct (parseEmote_run piece g) as (v & h1 & Hrun & (ext1 & ->) & Hv).
    destruct (IH (g ++ ext1)) as (vs & h2 & Hruns & (ext2 & ->) & Hvs).
    exists (v :: vs), ((g ++ ext1) ++ ext2).
    split; [|split].
    + erewrite bind_Normal by exact Hrun.
      erewrite bind_Normal by exact Hruns. reflexivity.
    + exists (ext1 ++ ext2). now rewrite app_assoc.
    + constructor; [now apply represents_extends|exact Hvs].
Qed.

Lemma filter_represents h (vs : list Store.Value)
      (entries : list (option (string * list string))) :
  Forall2 (Store.represents h) vs entries ->
  Forall2 (Store.represents h) (filter Store.notNull vs) (map Some (dropNull entries)).
Proof.
  induction 1 as [|v entry vs entries Hv _ IH]; simpl; [constructor|].
  destruct entry as [[emoteId placements]|]; simpl in Hv.
  - destruct Hv as (p & a & -> & Hp & Ha). simpl.
    constructor; [|exact IH]. now exists p, a.
  - subst v. exact IH.
Qed.

Lemma Map_set_allocated g (entries : list (Store.Value * Store.Value)) (k v : Store.Value) :
  Store.Map_set (Store.Ref (List.length g)) k v (g ++ [Store.MapObject entries])
  = (Normal tt, g ++ [Store.MapObject (Store.setEntry k v entries)]).
Proof.
  unfold Store.Map_set. rewrite nth_error_allocated. f_equal.
  induction g as [|o g IH]; simpl; [reflexivity|].
  f_equal. exact IH.
Qed.

Lemma representsMap_set g (entries : list (Store.Value * Store.Value))
      (m : EmoteOffsetMap) (emoteId : string) (placements : list string)
      (a : nat) :
  Store.representsMap g entries m ->
  nth_error g a = Some (Store.Array (map Store.Str placements)) ->
  Store.representsMap g (Store.setEntry (Store.Str emoteId) (Store.Ref a) entries)
                (JSMap.set emoteId placements m).
Proof.
  intros Hm Ha. unfold Store.representsMap in *.
  induction Hm as [|entry e entries m (a' & -> & Ha') Hrest IH]; simpl.
  - constructor; [|constructor]. now exists a.
  - destruct e as [k ps]. simpl in *.
    destruct (k =? emoteId).
    + constructor; [now exists a|exact Hrest].
    + constructor; [now exists a'|exact IH].
Qed.

Lemma representsMap_extends h (x : Store.t) (entries : list (Store.Value * Store.Value))
      (m : EmoteOffsetMap) :
  Store.representsMap h entries m -> Store.representsMap (h ++ x) entries m.
Proof.
  unfold Store.representsMap. intros H.
  eapply Forall2_impl; [|exact H].
  intros entry e (a & He & Ha). exists a. auto using nth_error_extends.
Qed.

(** The constructor sets the entries on the [Map] it has just
    allocated, and touches nothing else. *)
Lemma forEach_set_run g (vs : list Store.Value)
      (entries : list (string * list string))
      (es : list (Store.Value * Store.Value)) (m : EmoteOffsetMap) :
  Forall2 (Store.represents g) vs (map Some entries) ->
  Store.representsMap g es m ->
  exists es',
    Store.forEach
      (fun entry =>
         Store.bind (Store.elementsOf entry) (fun pair =>
         Store.Map_set (Store.Ref (List.length g))
                 (nth 0 pair Store.Undefined) (nth 1 pair Store.Undefined)))
      vs (g ++ [Store.MapObject es])
    = (Normal tt, g ++ [Store.MapObject es']) /\
    Store.representsMap g es' (JSMap.setAll entries m).
Proof.
  revert vs es m.
  induction entries as [|[emoteId placements] entries IH];
    intros vs es m Hvs Hm; inversion Hvs as [|v ? vs' ? Hv Hvs']; subst.
  - exists es. split; [reflexivity|exact Hm].
  - destruct Hv as (p & a & -> & Hp & Ha).
    destruct (IH vs' (Store.setEntry (Store.Str emoteId) (Store.Ref a) es)
                 (JSMap.set emoteId placements m) Hvs')
      as (es' & Hrun & Hes').
    { now apply representsMap_set. }
    exists es'. split; [|exact Hes'].
    simpl Store.forEach.
    erewrite bind_Normal; [exact Hrun|].
    erewrite bind_Normal
      by (apply elementsOf_Array, nth_error_extends, Hp).
    apply Map_set_allocated.
Qed.

Lemma stringsOf_Str (ss : list string) : Store.stringsOf (map Store.Str ss) = Some ss.
Proof. induction ss as [|s ss IH]; simpl; [reflexivity|now rewrite IH]. Qed.

Lemma entriesContent_represents h (entries : list (Store.Value * Store.Value))
      (m : EmoteOffsetMap) :
  Store.representsMap h entries m -> Store.entriesContent h entries = Some m.
Proof.
  induction 1 as [|entry e entries m (a & -> & Ha) _ IH]; simpl;
    [reflexivity|].
  rewrite Ha, stringsOf_Str, IH. simpl. now destruct e.
Qed.

Lemma entriesContent_extends h (x : Store.t) (entries : list (Store.Value * Store.Value))
      (m : EmoteOffsetMap) :
  Store.entriesContent h entries = Some m ->
  Store.entriesContent (h ++ x) entries = Some m.
Proof.
  revert m. induction entries as [|entry entries IH]; intros m; simpl;
    [auto|].
  destruct (Store.entryContent h entry) as [e|] eqn:He; [|discriminate].
  destruct (Store.entriesContent h entries) as [es|]; [|discriminate].
  intros [= <-]. rewrite (IH es eq_refl).
  replace (Store.entryContent (h ++ x) entry) with (Some e); [reflexivity|].
  destruct entry as [[| |k|] [| | |a]]; simpl in *; try discriminate.
  destruct (nth_error h a) as [o|] eqn:Ha; [|discriminate].
  now rewrite (nth_error_extends _ x _ _ Ha).
Qed.

Lemma mapContent_extends h (x : Store.t) v (m : EmoteOffsetMap) :
  Store.mapContent h v = Some m -> Store.mapContent (h ++ x) v = Some m.
Proof.
  destruct v as [| | |r]; simpl; try discriminate.
  destruct (nth_error h r) as [[elements|entries]|] eqn:Hr; try discriminate.
  rewrite (nth_error_extends _ x _ _ Hr).
  apply entriesContent_extends.
Qed.

(** One call: the store it is given is a prefix of the store it
    leaves, the result is a new [Map] object, and what that object
    holds is what the parser returns for the input. *)
Lemma parseEmoteOffsets_run (emotes : option string) h :
  exists (r : nat) (ext : Store.t) (m : EmoteOffsetMap),
    Store.parseEmoteOffsets (Store.ofOption emotes) h = (Normal (Store.Ref r), h ++ ext) /\
    List.length h <= r /\
    Store.mapContent (h ++ ext) (Store.Ref r) = Some m /\
    parseEmoteOffsets emotes = Normal m.
Proof.
  assert (Hempty : exists (r : nat) (ext : Store.t) (m : EmoteOffsetMap),
             Store.new_Map Store.Undefined h = (Normal (Store.Ref r), h ++ ext) /\
             List.length h <= r /\
             Store.mapContent (h ++ ext) (Store.Ref r) = Some m /\
             Normal (JSMap.new []) = Normal m).
  { exists (List.length h), [Store.MapObject []], [].
    split; [reflexivity|]. split; [lia|]. split; [|reflexivity].
    simpl. now rewrite nth_error_allocated. }
  destruct emotes as [s|]; [|exact Hempty].
  unfold Store.parseEmoteOffsets, parseEmoteOffsets. simpl.
  destruct (s =? "") eqn:Hs; simpl; [exact Hempty|]. clear Hempty.
  rewrite mapM_parseEmote. simpl.
  set (pieces := JS.split "/" s).
  set (h0 := h ++ [Store.Array (map Store.Str pieces)]).
  destruct (mapM_parseEmote_run pieces h0) as (vs & h1 & Hmap & (ext1 & ->) & Hvs).
  set (h1 := h0 ++ ext1) in *.
  set (h2 := h1 ++ [Store.Array vs]).
  set (h3 := h2 ++ [Store.Array (filter Store.notNull vs)]).
  assert (Hkept : Forall2 (Store.represents h3) (filter Store.notNull vs)
                          (map Some (dropNull (map entryOf pieces)))).
  { apply filter_represents.
    eapply Forall2_impl; [|exact Hvs].
    intros v e Hv. unfold h3, h2. now do 2 apply represents_extends. }
  destruct (forEach_set_run h3 _ _ [] [] Hkept) as (es & Hset & Hes);
    [constructor|].
  exists (List.length h3),
    ([Store.Array (map Store.Str pieces)] ++ ext1 ++ [Store.Array vs]
       ++ [Store.Array (filter Store.notNull vs)] ++ [Store.MapObject es]),
    (JSMap.new (dropNull (map entryOf pieces))).
  assert (Hstore : h ++ [Store.Array (map Store.Str pieces)] ++ ext1 ++ [Store.Array vs]
                     ++ [Store.Array (filter Store.notNull vs)] ++ [Store.MapObject es]
                   = h3 ++ [Store.MapObject es]).
  { unfold h3, h2, h1, h0. now rewrite <- !app_assoc. }
  rewrite Hstore. split; [|split; [|split]].
  - erewrite bind_Normal by reflexivity. fold h0.
    erewrite bind_Normal.
    2:{ unfold Store.Array_map.
        erewrite bind_Normal
          by (apply elementsOf_Array, nth_error_allocated).
        erewrite bind_Normal by exact Hmap. reflexivity. }
    fold h1 h2.
    erewrite bind_Normal.
    2:{ unfold Store.Array_filter.
        erewrite bind_Normal
          by (apply elementsOf_Array, nth_error_allocated).
        reflexivity. }
    fold h3. unfold Store.new_Map.
    erewrite bind_Normal by reflexivity.
    erewrite bind_Normal
      by (apply elementsOf_Array, nth_error_extends, nth_error_allocated).
    erewrite bind_Normal by exact Hset. reflexivity.
  - unfold h3, h2, h1, h0. rewrite !length_app. lia.
  - simpl. rewrite nth_error_allocated.
    apply entriesContent_represents, representsMap_extends, Hes.
  - reflexivity.
Qed.

End StoreFacts.

(** The frame of the theorem below is a property of this code, not of
    the store: a computation may change an object that exists. *)
Example Map_set_changes_the_store :
  Store.Map_set (Store.Ref 0) (Store.Str "25") Store.Null [Store.MapObject []]
  = (Normal tt, [Store.MapObject [(Store.Str "25", Store.Null)]]).
Proof. reflexivity. Qed.

(** C9. The parser is deterministic and has no side effect.  Run on
    the store of objects, in any state, a call completes and leaves
    every object that existed as it was: it only adds the objects it
    creates.  It returns a reference to a [Map] that did not exist
    before, and the emote ids and placements this [Map] holds are the
    ones the parser returns for the input, whatever the store.  A
    second call with the same input returns another [Map] object with
    equal contents, and leaves the first one unchanged. *)
Theorem parseEmoteOffsets_pure (emotes : option string) (h : Store.t) :
  exists (m : EmoteOffsetMap) (r1 r2 : nat) (h1 h2 : Store.t),
    Store.parseEmoteOffsets (Store.ofOption emotes) h
    = (Normal (Store.Ref r1), h1) /\
    Store.parseEmoteOffsets (Store.ofOption emotes) h1
    = (Normal (Store.Ref r2), h2) /\
    (forall r o, nth_error h r = Some o -> nth_error h1 r = Some o) /\
    (forall r o, nth_error h1 r = Some o -> nth_error h2 r = Some o) /\
    nth_error h r1 = None /\
    nth_error h1 r2 = None /\
    r1 <> r2 /\
    Store.mapContent h1 (Store.Ref r1) = Some m /\
    Store.mapContent h2 (Store.Ref r1) = Some m /\
    Store.mapContent h2 (Store.Ref r2) = Some m /\
    parseEmoteOffsets emotes = Normal m.
Proof.
  destruct (parseEmoteOffsets_run emotes h)
    as (r1 & ext1 & m & Hrun1 & Hr1 & Hm1 & Hm).
  destruct (parseEmoteOffsets_run emotes (h ++ ext1))
    as (r2 & ext2 & m' & Hrun2 & Hr2 & Hm2 & Hm').
  assert (m' = m) by congruence. subst m'.
  assert (Hin : r1 < List.length (h ++ ext1)).
  { apply nth_error_Some. unfold Store.mapContent in Hm1.
    destruct (nth_error (h ++ ext1) r1); [discriminate|inversion Hm1]. }
  exists m, r1, r2, (h ++ ext1), ((h ++ ext1) ++ ext2).
  split; [exact Hrun1|]. split; [exact Hrun2|].
  split; [intros r o; apply nth_error_extends|].
  split; [intros r o; apply nth_error_extends|].
  split; [now apply nth_error_None|].
  split; [now apply nth_error_None|].
  split; [lia|].
  split; [exact Hm1|].
  split; [now apply mapContent_extends|].
  split; [exact Hm2|exact Hm].
Qed.

(** ** The sweep *)

Section SweepFacts.

Import EventSub.

Variable World : Type.
Variable unsubscribe :
  HelixEventSubSubscription -> World -> Completion.t unit * World.

Local Abbreviation forAwait := (EventSub.forAwait World unsubscribe).

Implicit Types (cond : option (HelixEventSubSubscription -> bool))
         (it : list IterStep) (w : World) (tr : list Event).

Lemma unsubscribed_app tr tr' :
  unsubscribed (tr ++ tr') = unsubscribed tr ++ unsubscribed tr'.
Proof.
  induction tr as [|[| | | |] tr IH]; simpl; auto. now rewrite IH.
Qed.

Lemma evaluated_app tr tr' :
  evaluated (tr ++ tr') = evaluated tr ++ evaluated tr'.
Proof.
  induction tr as [|[| | | |] tr IH]; simpl; auto. now rewrite IH.
Qed.

Lemma requests_app tr tr' : requests (tr ++ tr') = requests tr + requests tr'.
Proof.
  induction tr as [|[| | | |] tr IH]; simpl; auto.
Qed.

Lemma trace_not_empty cond it w : trace (forAwait cond it w) <> [].
Proof.
  destruct it as [|[sub|e] it]; simpl; try discriminate.
  destruct cond as [c|]; [destruct (c sub)|];
    try destruct (unsubscribe sub w) as [[[]|e] w']; discriminate.
Qed.




(** A sweep that completes has met no failure and has handled every
    record of the source, one after the other. *)
Lemma forAwait_completed cond it w :
  outcome (forAwait cond it w) = Normal tt ->
  it = map Yield (yielded it) /\
  trace (forAwait cond it w)
  = flat_map (handled cond) (yielded it) ++ [NextRequested].
Proof.
  revert w. induction it as [|[sub|e] it IH]; intros w; simpl.
  - auto.
  - unfold handled. destruct cond as [c|]; simpl; [destruct (c sub) eqn:Hc|].
    + destruct (unsubscribe sub w) as [[[]|e] w']; simpl; [|discriminate].
      intros H. destruct (IH w' H) as [<- ->]. auto.
    + simpl. intros H. destruct (IH w H) as [<- ->]. auto.
    + destruct (unsubscribe sub w) as [[[]|e] w']; simpl; [|discriminate].
      intros H. destruct (IH w' H) as [<- ->]. auto.
  - discriminate.
Qed.

Lemma unsubscribed_handled cond (subs : list HelixEventSubSubscription) :
  unsubscribed (flat_map (handled cond) subs ++ [NextRequested])
  = filter (selected cond) subs.
Proof.
  induction subs as [|sub subs IH]; simpl; [reflexivity|].
  rewrite <- app_assoc, unsubscribed_app.
  rewrite IH. destruct cond as [c|]; simpl; [destruct (c sub)|]; reflexivity.
Qed.

(** A sweep that completed on a first part of the source goes on with
    what follows, from the state it reached: its last request is the
    one the next record answers. *)
Lemma forAwait_app cond it it' w :
  outcome (forAwait cond it w) = Normal tt ->
  let r := forAwait cond it w in
  let r' := forAwait cond it' (world r) in
  trace (forAwait cond (it ++ it') w) = removelast (trace r) ++ trace r' /\
  outcome (forAwait cond (it ++ it') w) = outcome r' /\
  world (forAwait cond (it ++ it') w) = world r'.
Proof.
  revert w. induction it as [|[sub|e] it IH]; intros w; simpl.
  - auto.
  - destruct cond as [c|]; [destruct (c sub) eqn:Hc|].
    + destruct (unsubscribe sub w) as [[[]|e] w']; simpl; [|discriminate].
      intros H. destruct (IH w' H) as (-> & -> & ->).
      pose proof (trace_not_empty (Some c) it w') as Hne.
      destruct (trace (forAwait (Some c) it w')); [congruence|auto].
    + simpl. intros H. destruct (IH w H) as (-> & -> & ->).
      pose proof (trace_not_empty (Some c) it w) as Hne.
      destruct (trace (forAwait (Some c) it w)); [congruence|auto].
    + destruct (unsubscribe sub w) as [[[]|e] w']; simpl; [|discriminate].
      intros H. destruct (IH w' H) as (-> & -> & ->).
      pose proof (trace_not_empty None it w') as Hne.
      destruct (trace (forAwait None it w')); [congruence|auto].
  - discriminate.
Qed.

Lemma evaluated_handled cond (subs : list HelixEventSubSubscription) :
  evaluated (flat_map (handled cond) subs)
  = match cond with
    | None => []
    | Some _ => subs
    end.
Proof.
  induction subs as [|sub subs IH]; simpl; [now destruct cond|].
  rewrite evaluated_app, IH.
  destruct cond as [c|]; simpl; [destruct (c sub)|]; reflexivity.
Qed.

Lemma requests_handled cond (subs : list HelixEventSubSubscription) :
  requests (flat_map (handled cond) subs) = List.length subs.
Proof.
  induction subs as [|sub subs IH]; simpl; [reflexivity|].
  rewrite requests_app, IH.
  destruct cond as [c|]; simpl; [destruct (c sub)|]; reflexivity.
Qed.

End SweepFacts.



(** C6. When the sweep has completed on the records before some
    position and the [unsubscribe] of the selected record at that
    position fails, or the source fails there, the sweep ends with that
    failure, and nothing that follows in the source is touched: the
    trace is the one of the records before, followed by the request
    that met the failure (and the failed invocation); the predicate was
    evaluated on, and [unsubscribe] invoked for, no later record. *)
Theorem sweep_aborts_on_failure
        (World : Type)
        (unsubscribe : EventSub.HelixEventSubSubscription -> World
                       -> Completion.t unit * World)
        (cond : option (EventSub.HelixEventSubSubscription -> bool))
        (pre post : list EventSub.IterStep) (w : World) :
  let before := EventSub.forAwait World unsubscribe cond pre w in
  EventSub.outcome before = Normal tt ->
  (forall sub e w',
      EventSub.selected cond sub = true ->
      unsubscribe sub (EventSub.world before) = (Throw e, w') ->
      let r := EventSub._deleteSubscriptionsWithCondition
                 World unsubscribe (pre ++ EventSub.Yield sub :: post) cond w in
      EventSub.outcome r = Throw e /\
      EventSub.world r = w' /\
      EventSub.trace r
      = flat_map (EventSub.handled cond) (EventSub.yielded pre)
          ++ EventSub.NextRequested
          :: match cond with
             | None => []
             | Some _ => [EventSub.CondEvaluated sub]
             end
          ++ [EventSub.UnsubscribeCalled sub; EventSub.UnsubscribeRejected sub e] /\
      EventSub.unsubscribed (EventSub.trace r)
      = filter (EventSub.selected cond) (EventSub.yielded pre) ++ [sub] /\
      EventSub.evaluated (EventSub.trace r)
      = match cond with
        | None => []
        | Some _ => EventSub.yielded pre ++ [sub]
        end /\
      EventSub.requests (EventSub.trace r) = S (List.length (EventSub.yielded pre)))
  /\
  (forall e,
      let r := EventSub._deleteSubscriptionsWithCondition
                 World unsubscribe (pre ++ EventSub.Fail e :: post) cond w in
      EventSub.outcome r = Throw e /\
      EventSub.world r = EventSub.world before /\
      EventSub.trace r = EventSub.trace before /\
      EventSub.unsubscribed (EventSub.trace r)
      = filter (EventSub.selected cond) (EventSub.yielded pre)).
Proof.
  intros before Hdone.
  destruct (forAwait_completed _ _ _ _ _ Hdone) as [_ Htr].
  fold before in Htr.
  assert (Hlast : removelast (EventSub.trace before)
                  = flat_map (EventSub.handled cond) (EventSub.yielded pre)).
  { rewrite Htr. apply removelast_last. }
  unfold EventSub._deleteSubscriptionsWithCondition. cbv zeta. split.
  - intros sub e w' Hsel Hfail.
    destruct (forAwait_app World unsubscribe cond pre
                           (EventSub.Yield sub :: post) w Hdone)
      as (Ht & Ho & Hw).
    cbv zeta in Ht, Ho, Hw. fold before in Ht, Ho, Hw.
    rewrite Hlast in Ht.
    assert (Hstep :
              EventSub.forAwait World unsubscribe cond
                                (EventSub.Yield sub :: post)
                                (EventSub.world before)
              = {| EventSub.trace :=
                    EventSub.NextRequested
                      :: match cond with
                         | None => []
                         | Some _ => [EventSub.CondEvaluated sub]
                         end
                      ++ [EventSub.UnsubscribeCalled sub;
                          EventSub.UnsubscribeRejected sub e];
                  EventSub.outcome := Throw e;
                  EventSub.world := w' |}).
    { simpl. destruct cond as [c|]; simpl in Hsel; rewrite ?Hsel, Hfail;
        reflexivity. }
    rewrite Hstep in Ht, Ho, Hw. simpl in Ht, Ho, Hw.
    repeat split; try assumption; rewrite Ht.
    + rewrite unsubscribed_app.
      rewrite <- (unsubscribed_handled cond (EventSub.yielded pre)).
      rewrite unsubscribed_app. simpl. rewrite app_nil_r.
      now destruct cond.
    + rewrite evaluated_app, evaluated_handled. now destruct cond.
    + rewrite requests_app, requests_handled.
      destruct cond; simpl; lia.
  - intros e.
    destruct (forAwait_app World unsubscribe cond pre
                           (EventSub.Fail e :: post) w Hdone)
      as (Ht & Ho & Hw).
    cbv zeta in Ht, Ho, Hw. fold before in Ht, Ho, Hw.
    simpl in Ht, Ho, Hw. rewrite Hlast in Ht.
    repeat split; try assumption.
    + now rewrite Ht, Htr.
    + rewrite Ht. apply unsubscribed_handled.
Qed.

(** The second call of [unsubscribe] fails; the platform counts the
    calls. *)
Lemma sweep_aborts_on_failure_witness :
  let unsubscribe :=
    fun (sub : EventSub.HelixEventSubSubscription) (calls : nat) =>
      (if Nat.eqb calls 1 then Throw (Error "gone") else Normal tt, S calls) in
  let sub := fun i => {| EventSub.id := i; EventSub.status := "user_removed" |} in
  let r :=
    EventSub.deleteAllSubscriptions
      nat unsubscribe
      (map EventSub.Yield [sub "a"; sub "b"; sub "c"; sub "d"]) 0 in
  EventSub.outcome r = Throw (Error "gone") /\
  EventSub.unsubscribed (EventSub.trace r) = [sub "a"; sub "b"] /\
  EventSub.requests (EventSub.trace r) = 2 /\
  EventSub.world r = 2.
Proof.
  intros unsubscribe sub r.
  destruct (sweep_aborts_on_failure
              nat unsubscribe None
              [EventSub.Yield (sub "a")]
              [EventSub.Yield (sub "c"); EventSub.Yield (sub "d")] 0 eq_refl)
    as [H _].
  destruct (H (sub "b") (Error "gone") 2 eq_refl eq_refl)
    as (Ho & Hw & _ & Hu & _ & Hr).
  repeat split; assumption.
Defined.

(** ** The guard of [createSubscription] *)

Section CreateSubscriptionFacts.

Import EventSub.

Variable UserIdResolvable : Type.
Variable toBoolean : UserIdResolvable -> bool.
Variable extractUserId : UserIdResolvable -> string.
Variable mapOptional :
  option UserIdResolvable -> (UserIdResolvable -> string) -> option string.
Variable Condition : Type.
Variable HelixEventSubTransportOptions : Type.
Variable method : HelixEventSubTransportOptions -> string.
Variable HelixEventSubSubscriptionData : Type.
Variable callApi :
  HelixApiCallOptions Condition HelixEventSubTransportOptions
  -> Completion.t (list HelixEventSubSubscriptionData).

Local Abbreviation createSubscription :=
  (EventSub.createSubscription
     UserIdResolvable toBoolean extractUserId mapOptional Condition
     HelixEventSubTransportOptions method HelixEventSubSubscriptionData callApi).

Lemma createSubscription_cases
      (type version : string) (condition : Condition)
      (transport : HelixEventSubTransportOptions)
      (user : option UserIdResolvable)
      (requiredScopeSet : option (list string)) (isBatched : option bool) :
  let c := createSubscription type version condition transport user
                              requiredScopeSet isBatched in
  (method transport <> "webhook" /\ truthyUser toBoolean user = false /\
   issued c = [] /\
   returned c = Throw (Error (guardMessage method transport)))
  \/
  ((method transport = "webhook" \/ truthyUser toBoolean user = true) /\
   exists options,
     issued c = [options] /\
     returned c = (result <- callApi options ;; Normal (nth_error result 0))).
Proof.
  unfold EventSub.createSubscription. cbv zeta.
  destruct (String.eqb_spec (method transport) "webhook") as [Hm|Hm];
    destruct (truthyUser toBoolean user) eqn:Hu; simpl.
  - right. split; [now left|]. eexists. split; reflexivity.
  - right. split; [now left|]. eexists. split; reflexivity.
  - right. split; [now right|]. eexists. split; reflexivity.
  - left. repeat split. exact Hm.
Qed.

(** C10, as amended.  [createSubscription] throws its error, before
    any request is issued, exactly when the transport method is not
    [webhook] and the user argument is falsy: absent, or a value whose
    [ToBoolean] is false (the empty string, the number zero).  In
    particular it does so when no user is supplied.  In every other
    case the guard does not fire and exactly one request is issued. *)
Theorem createSubscription_guard
        (type version : string) (condition : Condition)
        (transport : HelixEventSubTransportOptions)
        (user : option UserIdResolvable)
        (requiredScopeSet : option (list string)) (isBatched : option bool) :
  let c := createSubscription type version condition transport user
                              requiredScopeSet isBatched in
  let without_user := createSubscription type version condition transport None
                                         requiredScopeSet isBatched in
  (guardFired method transport c
   <-> method transport <> "webhook" /\ truthyUser toBoolean user = false) /\
  (method transport <> "webhook" <-> guardFired method transport without_user) /\
  (guardFired method transport c
   \/ exists options,
       issued c = [options] /\
       returned c = (result <- callApi options ;; Normal (nth_error result 0))).
Proof.
  intros c without_user. unfold guardFired.
  pose proof (createSubscription_cases type version condition transport user
                                       requiredScopeSet isBatched) as Hc.
  pose proof (createSubscription_cases type version condition transport None
                                       requiredScopeSet isBatched) as Hn.
  cbv zeta in Hc, Hn. fold c in Hc. fold without_user in Hn.
  split; [|split].
  - destruct Hc as [(Hm & Hu & Hi & Hr)|([Hm|Hu] & options & Hi & Hr)].
    + tauto.
    + split; [|tauto]. intros [Hi' _]. rewrite Hi in Hi'. discriminate.
    + split; [|intros [_ Hu']; congruence].
      intros [Hi' _]. rewrite Hi in Hi'. discriminate.
  - destruct Hn as [(Hm & _ & Hi & Hr)|([Hm|Hu] & options & Hi & Hr)].
    + tauto.
    + split; [tauto|]. intros [Hi' _]. rewrite Hi in Hi'. discriminate.
    + discriminate Hu.
  - destruct Hc as [(_ & _ & Hi & Hr)|(_ & options & Hi & Hr)].
    + now left.
    + right. now exists options.
Qed.

End CreateSubscriptionFacts.

(** C10 as stated does not hold once user ids may be strings, as in
    [subscribeToUserFollowsTo('125328655', ...)]: the empty string is a
    user argument that is supplied, and it is falsy, so the guard fires
    for it on a transport that is not a webhook. *)
Lemma guardOnlyWithoutUser_fails :
  ~ EventSub.guardOnlyWithoutUser
      string (fun userId => negb (userId =? ""))
      (fun userId => userId)
      (fun user extract => option_map extract user)
      unit string (fun transportMethod => transportMethod)
      unit (fun _ => Normal []).
Proof.
  intros H.
  destruct (H "channel.follow" "2" tt "websocket" (Some "") None None)
    as [Hfired _].
  destruct Hfired as [_ Hnone]; [|discriminate Hnone].
  split; reflexivity.
Qed.

(** * Further properties *)

(** ** More on strings *)

Lemma split_not_nil (sep : ascii) (s : string) : JS.split sep s <> [].
Proof.
  destruct s as [|c s]; simpl; [discriminate|].
  destruct (Ascii.eqb c sep); [discriminate|].
  destruct (JS.split sep s); discriminate.
Qed.

(** Splitting at a separator splits both sides of it. *)
Lemma split_app (sep : ascii) (a b : string) :
  JS.split sep (a ++ String sep b) = JS.split sep a ++ JS.split sep b.
Proof.
  induction a as [|c a IH]; simpl.
  - now rewrite Ascii.eqb_refl.
  - destruct (Ascii.eqb c sep); [now rewrite IH|].
    rewrite IH. pose proof (split_not_nil sep a) as Hne.
    destruct (JS.split sep a); [congruence|reflexivity].
Qed.

Lemma join_split (sep : ascii) (s : string) :
  JS.join sep (JS.split sep s) = s.
Proof.
  induction s as [|c s IH]; [reflexivity|]. simpl JS.split.
  pose proof (split_not_nil sep s) as Hne.
  destruct (Ascii.eqb_spec c sep) as [->|Hc].
  - destruct (JS.split sep s) as [|piece pieces]; [congruence|].
    change (JS.join sep ("" :: piece :: pieces))
      with (String sep (JS.join sep (piece :: pieces))).
    now rewrite IH.
  - destruct (JS.split sep s) as [|piece pieces]; [congruence|].
    destruct pieces as [|piece' pieces].
    + simpl in *. now rewrite IH.
    + change (JS.join sep (String c piece :: piece' :: pieces))
        with (String c (JS.join sep (piece :: piece' :: pieces))).
      now rewrite IH.
Qed.

(** The pieces of a string hold no character the string does not
    hold. *)
Lemma split_pieces_free_of (c sep : ascii) (s : string) :
  free c s -> Forall (free c) (JS.split sep s).
Proof.
  induction s as [|x s IH]; simpl; intros Hfree.
  - constructor; [reflexivity|constructor].
  - apply free_cons in Hfree as [Hx Hs]. specialize (IH Hs).
    destruct (Ascii.eqb x sep).
    + constructor; [reflexivity|exact IH].
    + destruct (JS.split sep s) as [|piece pieces].
      * constructor; [|constructor]. now apply free_cons.
      * inversion IH as [|? ? Hp Hps]; subst.
        constructor; [|exact Hps]. now apply free_cons.
Qed.

Lemma length_split (sep : ascii) (s : string) :
  List.length (JS.split sep s) = S (countChar sep s).
Proof.
  induction s as [|c s IH]; simpl; [reflexivity|].
  destruct (Ascii.eqb c sep); simpl; [now rewrite IH|].
  pose proof (split_not_nil sep s) as Hne.
  destruct (JS.split sep s); [congruence|exact IH].
Qed.

(** ** More on the [Map] *)

Section MoreMapFacts.

Import JSMap.

Context {V : Type}.
Implicit Types (m : JSMap.t V) (k : string) (v : V) (ks : list string).

Lemma existsb_eqb_In k ks : existsb (String.eqb k) ks = true <-> In k ks.
Proof.
  rewrite existsb_exists. split.
  - intros (k' & Hin & Heq). apply String.eqb_eq in Heq. now subst.
  - intros Hin. exists k. split; [exact Hin|apply String.eqb_refl].
Qed.

Lemma keys_set_addKey k v m : keys (set k v m) = addKey (keys m) k.
Proof.
  unfold addKey, keys. induction m as [|[k' v'] m IH]; simpl; [reflexivity|].
  rewrite (String.eqb_sym k k').
  destruct (k' =? k); simpl; [reflexivity|].
  rewrite IH. now destruct (existsb (String.eqb k) (map fst m)).
Qed.

Lemma keys_setAll_addKey (entries : list (string * V)) m :
  keys (setAll entries m) = fold_left addKey (map fst entries) (keys m).
Proof.
  unfold setAll. revert m.
  induction entries as [|[k v] entries IH]; intros m; simpl; [reflexivity|].
  now rewrite IH, keys_set_addKey.
Qed.

Lemma NoDup_addKey k ks : NoDup ks -> NoDup (addKey ks k).
Proof.
  intros Hnd. unfold addKey.
  destruct (existsb (String.eqb k) ks) eqn:E; [exact Hnd|].
  apply NoDup_app; [exact Hnd|repeat constructor; now intros []|].
  intros k' Hin [<-|[]].
  apply existsb_eqb_In in Hin. congruence.
Qed.

Lemma NoDup_fold_addKey (l ks : list string) :
  NoDup ks -> NoDup (fold_left addKey l ks).
Proof.
  revert ks. induction l as [|k l IH]; intros ks Hnd; simpl; [exact Hnd|].
  apply IH, NoDup_addKey, Hnd.
Qed.

Lemma In_set k v m (e : string * V) :
  In e (set k v m) -> e = (k, v) \/ In e m.
Proof.
  induction m as [|[k' v'] m IH]; simpl.
  - intros [<-|[]]. now left.
  - destruct (String.eqb_spec k' k) as [->|Hk]; simpl.
    + intros [<-|H]; auto.
    + intros [<-|H]; auto. destruct (IH H); auto.
Qed.

Lemma In_setAll (entries : list (string * V)) m (e : string * V) :
  In e (setAll entries m) -> In e entries \/ In e m.
Proof.
  unfold setAll. revert m.
  induction entries as [|[k v] entries IH]; intros m; simpl; [auto|].
  intros H. destruct (IH _ H) as [H'|H']; [auto|].
  destruct (In_set _ _ _ _ H') as [->|H'']; auto.
Qed.

Lemma length_set k v m : List.length (set k v m) <= S (List.length m).
Proof.
  induction m as [|[k' v'] m IH]; simpl; [lia|].
  destruct (k' =? k); simpl; lia.
Qed.

Lemma length_setAll (entries : list (string * V)) m :
  List.length (setAll entries m) <= List.length m + List.length entries.
Proof.
  unfold setAll. revert m.
  induction entries as [|[k v] entries IH]; intros m; simpl; [lia|].
  specialize (IH (set k v m)). pose proof (length_set k v m). lia.
Qed.

(** Two maps with the same keys in the same order, each key once, and
    the same value under every key are the same map. *)
Lemma map_ext m m' :
  keys m = keys m' -> NoDup (keys m) ->
  (forall k, get k m = get k m') -> m = m'.
Proof.
  unfold keys. revert m'.
  induction m as [|[k v] m IH]; intros [|[k' v'] m']; simpl;
    try discriminate; [reflexivity|].
  intros Hkeys Hnd Hget. injection Hkeys as <- Hkeys.
  inversion Hnd as [|? ? Hk Hnd']; subst.
  pose proof (Hget k) as Hv. rewrite String.eqb_refl in Hv.
  injection Hv as <-. f_equal.
  apply IH; [exact Hkeys|exact Hnd'|].
  intros k0. specialize (Hget k0).
  destruct (String.eqb_spec k k0) as [E|Hne]; [|exact Hget].
  subst k0. transitivity (@None V); [|symmetry].
  - apply get_None. exact Hk.
  - apply get_None. unfold keys. now rewrite <- Hkeys.
Qed.

(** Reading a map whose keys are distinct does not depend on the side
    it is read from. *)
Lemma get_rev m k : NoDup (keys m) -> get k (rev m) = get k m.
Proof.
  unfold keys. induction m as [|[k' v'] m IH]; simpl; intros Hnd;
    [reflexivity|].
  inversion Hnd as [|? ? Hk Hnd']; subst.
  rewrite get_app, (IH Hnd'). simpl.
  destruct (String.eqb_spec k' k) as [->|Hne].
  - replace (get k m) with (@None V); [reflexivity|].
    symmetry. now apply get_None.
  - now destruct (get k m).
Qed.

End MoreMapFacts.

(** ** First occurrences *)

Lemma In_firstOccurrences (k : string) (ks : list string) :
  In k (firstOccurrences ks) <-> In k ks.
Proof.
  induction ks as [|k' ks IH]; simpl; [tauto|].
  rewrite filter_In, IH, negb_true_iff.
  destruct (String.eqb_spec k k') as [->|Hne]; [tauto|].
  split; [tauto|]. intros [->|H]; [congruence|auto].
Qed.

Lemma NoDup_firstOccurrences (ks : list string) : NoDup (firstOccurrences ks).
Proof.
  induction ks as [|k ks IH]; simpl; constructor.
  - rewrite filter_In, String.eqb_refl. now intros [_ H].
  - now apply NoDup_filter.
Qed.

Lemma filter_filter {A : Type} (f g : A -> bool) (l : list A) :
  filter f (filter g l) = filter (fun a => g a && f a) l.
Proof.
  induction l as [|a l IH]; simpl; [reflexivity|].
  destruct (g a); simpl; [destruct (f a)|]; now rewrite IH.
Qed.

Lemma filter_all {A : Type} (f : A -> bool) (l : list A) :
  (forall a, In a l -> f a = true) -> filter f l = l.
Proof.
  induction l as [|a l IH]; simpl; intros H; [reflexivity|].
  rewrite (H a) by now left. f_equal. apply IH. intros; apply H; now right.
Qed.

Lemma filter_none {A : Type} (f : A -> bool) (l : list A) :
  (forall a, In a l -> f a = false) -> filter f l = [].
Proof.
  induction l as [|a l IH]; simpl; intros H; [reflexivity|].
  rewrite (H a) by now left. apply IH. intros; apply H; now right.
Qed.

Lemma firstOccurrences_NoDup (ks : list string) :
  NoDup ks -> firstOccurrences ks = ks.
Proof.
  induction 1 as [|k ks Hk _ IH]; simpl; [reflexivity|].
  rewrite IH. f_equal. apply filter_all. intros k' Hin.
  apply negb_true_iff, String.eqb_neq. congruence.
Qed.

(** Setting keys one after the other appends the new ones where they
    occur first. *)
Lemma fold_addKey (l ks : list string) :
  fold_left addKey l ks
  = ks ++ filter (fun k => negb (existsb (String.eqb k) ks)) (firstOccurrences l).
Proof.
  revert ks. induction l as [|k l IH]; intros ks; simpl.
  - now rewrite app_nil_r.
  - rewrite IH. unfold addKey.
    destruct (existsb (String.eqb k) ks) eqn:E; simpl.
    + f_equal. rewrite filter_filter. apply filter_ext. intros k'.
      destruct (String.eqb_spec k' k) as [->|Hne]; simpl; [|reflexivity].
      now rewrite E.
    + rewrite <- app_assoc. simpl. f_equal. f_equal.
      rewrite filter_filter. apply filter_ext. intros k'.
      rewrite existsb_app. simpl. rewrite orb_false_r, negb_orb.
      now rewrite andb_comm.
Qed.

Lemma keys_new {V : Type} (entries : list (string * V)) :
  JSMap.keys (JSMap.new entries) = firstOccurrences (map fst entries).
Proof.
  unfold JSMap.new. rewrite keys_setAll_addKey, fold_addKey. simpl.
  apply filter_all. reflexivity.
Qed.

(** ** More on the parser *)

Lemma entryOf_wellFormed (piece : string) (e : string * list string) :
  free "/" piece -> entryOf piece = Some e -> wellFormedEmote e.
Proof.
  intros Hslash. unfold entryOf.
  pose proof (split_pieces_free ":" piece) as Hcolon.
  pose proof (split_pieces_free_of "/" ":" piece Hslash) as Hparts.
  destruct (JS.split ":" piece) as [|emoteId [|segment rest]];
    try discriminate.
  destruct (String.eqb_spec segment "") as [|Hne]; [discriminate|].
  intros [= <-].
  inversion Hcolon as [|? ? Hc1 Hcolon']; subst.
  inversion Hcolon' as [|? ? Hc2 _]; subst.
  inversion Hparts as [|? ? Hs1 Hparts']; subst.
  inversion Hparts' as [|? ? Hs2 _]; subst.
  unfold wellFormedEmote. simpl.
  split; [exact Hs1|]. split; [exact Hc1|]. split.
  - pose proof (split_pieces_free_of "/" "," segment Hs2) as H1.
    pose proof (split_pieces_free_of ":" "," segment Hc2) as H2.
    pose proof (split_pieces_free "," segment) as H3.
    rewrite Forall_forall in *. intros p Hp. auto.
  - now rewrite join_split.
Qed.

Lemma keptEntries_wellFormed (s : string) :
  Forall wellFormedEmote (dropNull (map entryOf (JS.split "/" s))).
Proof.
  apply Forall_forall. intros e He.
  apply In_dropNull, in_map_iff in He as (piece & Hpiece & Hin).
  apply (entryOf_wellFormed piece); [|exact Hpiece].
  pose proof (split_pieces_free "/" s) as Hfree.
  rewrite Forall_forall in Hfree. now apply Hfree.
Qed.

Lemma new_wellFormed (entries : list (string * list string)) :
  Forall wellFormedEmote entries -> Forall wellFormedEmote (JSMap.new entries).
Proof.
  rewrite !Forall_forall. intros H e He.
  destruct (In_setAll _ _ _ He) as [Hin|[]]. now apply H.
Qed.

Lemma NoDup_keys_new {V : Type} (entries : list (string * V)) :
  NoDup (JSMap.keys (JSMap.new entries)).
Proof. rewrite keys_new. apply NoDup_firstOccurrences. Qed.

(** What the parser returns, on any input. *)
Lemma parseEmoteOffsets_result (emotes : option string) :
  exists m : EmoteOffsetMap,
    parseEmoteOffsets emotes = Normal m /\
    NoDup (JSMap.keys m) /\ Forall wellFormedEmote m.
Proof.
  destruct emotes as [s|].
  - eexists. split; [apply parseEmoteOffsets_entries|]. split.
    + apply NoDup_keys_new.
    + apply new_wellFormed, keptEntries_wellFormed.
  - exists []. repeat split; constructor.
Qed.

(** X1. In the map the parser returns no emote id occurs twice,
    whatever the input repeats. *)
Theorem parseEmoteOffsets_keys_distinct (emotes : option string) :
  exists m : EmoteOffsetMap,
    parseEmoteOffsets emotes = Normal m /\ NoDup (JSMap.keys m).
Proof.
  destruct (parseEmoteOffsets_result emotes) as (m & Hm & Hnd & _).
  now exists m.
Qed.

(** X2. Every entry of the map the parser returns is well formed,
    whatever the input: its emote id holds neither ['/'] nor [':'], its
    list of placements is not empty, no placement holds ['/'], [':'] or
    [','], and the placements are not one single empty string. *)
Theorem parseEmoteOffsets_entries_well_formed (emotes : option string) :
  exists m : EmoteOffsetMap,
    parseEmoteOffsets emotes = Normal m /\
    Forall wellFormedEmote m /\
    (forall emoteId placements,
        In (emoteId, placements) m ->
        placements <> [] /\ placements <> [""] /\
        free "/" emoteId /\ free ":" emoteId /\
        Forall (free ",") placements).
Proof.
  destruct (parseEmoteOffsets_result emotes) as (m & Hm & _ & Hwf).
  exists m. split; [exact Hm|]. split; [exact Hwf|].
  intros emoteId placements Hin.
  rewrite Forall_forall in Hwf.
  destruct (Hwf _ Hin) as (H1 & H2 & H3 & H4). simpl in *.
  repeat split; try assumption.
  - intros ->. now apply H4.
  - intros ->. now apply H4.
  - eapply Forall_impl; [|exact H3]. now intros p (_ & _ & H).
Qed.

(** X3. The map the parser returns is a normal form of the input:
    written out as ["id1:p1,p2/id2:p3"] and parsed again, it comes back
    unchanged. *)
Theorem parseEmoteOffsets_reparse (emotes : option string) :
  exists m : EmoteOffsetMap,
    parseEmoteOffsets emotes = Normal m /\
    parseEmoteOffsets (Some (renderEmotes m)) = Normal m.
Proof.
  destruct (parseEmoteOffsets_result emotes) as (m & Hm & Hnd & Hwf).
  exists m. split; [exact Hm|].
  rewrite parseEmoteOffsets_entries, (entries_renderEmotes _ Hwf).
  unfold JSMap.new. now rewrite setAll_fresh.
Qed.

(** X4. The map holds at most one entry for each ['/']-separated
    piece of the input: at most one more than the input has
    slashes. *)
Theorem parseEmoteOffsets_size (s : string) :
  exists m : EmoteOffsetMap,
    parseEmoteOffsets (Some s) = Normal m /\
    List.length m <= S (countChar "/" s).
Proof.
  eexists. split; [apply parseEmoteOffsets_entries|].
  unfold JSMap.new.
  pose proof (length_setAll (dropNull (map entryOf (JS.split "/" s))) [])
    as Hlen.
  simpl in Hlen. rewrite <- (length_split "/" s).
  assert (Hdrop : forall l : list (option (string * list string)),
             List.length (dropNull l) <= List.length l).
  { induction l as [|[e|] l IH]; simpl; lia. }
  specialize (Hdrop (map entryOf (JS.split "/" s))).
  rewrite length_map in Hdrop. lia.
Qed.

(** X5. An emote id is a key of the result exactly when some
    ['/']-separated piece of the input parses to an entry with that
    id. *)
Theorem parseEmoteOffsets_keys_iff (s : string) :
  exists m : EmoteOffsetMap,
    parseEmoteOffsets (Some s) = Normal m /\
    forall emoteId,
      In emoteId (JSMap.keys m)
      <-> exists piece placements,
          In piece (JS.split "/" s) /\
          parseEmote piece = Normal (Some (emoteId, placements)).
Proof.
  eexists. split; [apply parseEmoteOffsets_entries|].
  intros emoteId. split; [apply keys_from_pieces|].
  intros (piece & placements & Hin & Hpiece).
  rewrite parseEmote_entryOf in Hpiece. injection Hpiece as Hpiece.
  unfold JSMap.new. apply keys_setAll. left.
  apply in_map_iff. exists (emoteId, placements). split; [reflexivity|].
  apply In_dropNull, in_map_iff. now exists piece.
Qed.

(** X6. The keys of the result stand in the order in which the emote
    ids of the kept entries occur first in the input; a repeated id
    keeps its first position. *)
Theorem parseEmoteOffsets_key_order (s : string) :
  exists (entries : list (option (string * list string)))
         (m : EmoteOffsetMap),
    Completion.mapM parseEmote (JS.split "/" s) = Normal entries /\
    parseEmoteOffsets (Some s) = Normal m /\
    JSMap.keys m = firstOccurrences (map fst (dropNull entries)).
Proof.
  exists (map entryOf (JS.split "/" s)). eexists.
  split; [apply mapM_parseEmote|].
  split; [apply parseEmoteOffsets_entries|].
  apply keys_new.
Qed.

Lemma setAll_new {V : Type} (entries : list (string * V)) (m : JSMap.t V) :
  NoDup (JSMap.keys m) ->
  JSMap.setAll (JSMap.new entries) m = JSMap.setAll entries m.
Proof.
  intros Hnd. apply map_ext.
  - rewrite !keys_setAll_addKey, !fold_addKey.
    change (map fst (JSMap.new entries)) with (JSMap.keys (JSMap.new entries)).
    rewrite keys_new.
    now rewrite (firstOccurrences_NoDup _ (NoDup_firstOccurrences _)).
  - rewrite keys_setAll_addKey. now apply NoDup_fold_addKey.
  - intros k. rewrite !get_setAll.
    rewrite (get_rev _ _ (NoDup_keys_new entries)).
    unfold JSMap.new. rewrite get_setAll. simpl.
    now destruct (JSMap.get k (rev entries)).
Qed.

(** X7. Parsing composes along ['/']: the result for [a + "/" + b] is
    the result for [a] on which the entries of the result for [b] are
    set, in their order. *)
Theorem parseEmoteOffsets_concat (a b : string) :
  exists ma mb : EmoteOffsetMap,
    parseEmoteOffsets (Some a) = Normal ma /\
    parseEmoteOffsets (Some b) = Normal mb /\
    parseEmoteOffsets (Some (a ++ String "/" b)%string)
    = Normal (JSMap.setAll mb ma).
Proof.
  do 2 eexists.
  split; [apply parseEmoteOffsets_entries|].
  split; [apply parseEmoteOffsets_entries|].
  rewrite parseEmoteOffsets_entries, split_app, map_app, dropNull_app.
  f_equal. rewrite setAll_new by apply NoDup_keys_new.
  unfold JSMap.new, JSMap.setAll. apply fold_left_app.
Qed.

(** ** More on the sweep *)

Section MoreSweepFacts.

Import EventSub.

Variable World : Type.
Variable unsubscribe :
  HelixEventSubSubscription -> World -> Completion.t unit * World.

Local Abbreviation forAwait := (EventSub.forAwait World unsubscribe).

Implicit Types (cond : option (HelixEventSubSubscription -> bool))
         (it : list IterStep) (w : World) (tr : list Event).

Lemma forAwait_world cond it w :
  world (forAwait cond it w)
  = fold_left (fun w sub => snd (unsubscribe sub w))
              (unsubscribed (trace (forAwait cond it w))) w.
Proof.
  revert w. induction it as [|[sub|e] it IH]; intros w; simpl; auto.
  destruct cond as [c|]; [destruct (c sub)|];
    try destruct (unsubscribe sub w) as [[[]|e] w'] eqn:E; simpl;
    rewrite ?E; simpl; auto.
Qed.

Lemma forAwait_succeeds cond (subs : list HelixEventSubSubscription) w :
  (forall sub w', In sub subs -> selected cond sub = true ->
                  fst (unsubscribe sub w') = Normal tt) ->
  outcome (forAwait cond (map Yield subs) w) = Normal tt.
Proof.
  revert w. induction subs as [|sub subs IH]; intros w Hok; simpl; auto.
  assert (IH' : forall w', outcome (forAwait cond (map Yield subs) w')
                           = Normal tt).
  { intros w'. apply IH. intros s w'' Hin. apply Hok. now right. }
  destruct cond as [c|]; simpl in *; [destruct (c sub) eqn:Hc|].
  - specialize (Hok sub w (or_introl eq_refl) Hc).
    destruct (unsubscribe sub w) as [[[]|e] w']; simpl in *;
      [apply IH'|discriminate].
  - apply IH'.
  - specialize (Hok sub w (or_introl eq_refl) eq_refl).
    destruct (unsubscribe sub w) as [[[]|e] w']; simpl in *;
      [apply IH'|discriminate].
Qed.

Lemma yielded_map_Yield (subs : list HelixEventSubSubscription) :
  yielded (map Yield subs) = subs.
Proof. induction subs as [|sub subs IH]; simpl; congruence. Qed.

(** A sweep that selects none of the records handed out only asks for
    them. *)
Lemma forAwait_none_selected cond it w :
  Forall (fun sub => selected cond sub = false) (yielded it) ->
  trace (forAwait cond it w)
  = flat_map (handled cond) (yielded it) ++ [NextRequested] /\
  world (forAwait cond it w) = w.
Proof.
  revert w. induction it as [|[sub|e] it IH]; intros w Hnone; simpl; auto.
  simpl in Hnone. inversion Hnone as [|? ? Hsub Hrest]; subst.
  destruct cond as [c|]; simpl in Hsub; [|discriminate].
  unfold handled. simpl. rewrite Hsub. simpl.
  destruct (IH w Hrest) as [-> ->]. auto.
Qed.

Lemma forAwait_failure cond it w :
  match outcome (forAwait cond it w) with
  | Normal _ =>
      it = map Yield (yielded it) /\
      exists tr, trace (forAwait cond it w) = tr ++ [NextRequested]
  | Throw e =>
      (In (Fail e) it /\
       exists tr, trace (forAwait cond it w) = tr ++ [NextRequested])
      \/
      (exists sub tr,
          In (Yield sub) it /\ selected cond sub = true /\
          trace (forAwait cond it w) = tr ++ [UnsubscribeRejected sub e])
  end.
Proof.
  revert w. induction it as [|[sub|e] it IH]; intros w; simpl.
  - split; [reflexivity|]. now exists [].
  - assert (Hstep : forall evs w',
               match outcome (after evs (forAwait cond it w')) with
               | Normal _ =>
                   Yield sub :: it = Yield sub :: map Yield (yielded it) /\
                   exists tr,
                     trace (after evs (forAwait cond it w'))
                     = tr ++ [NextRequested]
               | Throw e =>
                   ((Yield sub = Fail e \/ In (Fail e) it) /\
                    exists tr,
                      trace (after evs (forAwait cond it w'))
                      = tr ++ [NextRequested])
                   \/
                   (exists sub0 tr,
                       (Yield sub = Yield sub0 \/ In (Yield sub0) it) /\
                       selected cond sub0 = true /\
                       trace (after evs (forAwait cond it w'))
                       = tr ++ [UnsubscribeRejected sub0 e])
               end).
    { intros evs w'. specialize (IH w'). simpl.
      destruct (outcome (forAwait cond it w')) as [[]|e].
      - destruct IH as [<- (tr & ->)]. split; [reflexivity|].
        exists (evs ++ tr). now rewrite app_assoc.
      - destruct IH as [[Hin (tr & ->)]|(sub0 & tr & Hin & Hsel & ->)].
        + left. split; [now right|]. exists (evs ++ tr). now rewrite app_assoc.
        + right. exists sub0, (evs ++ tr). repeat split; auto.
          now rewrite app_assoc. }
    destruct cond as [c|]; [destruct (c sub) eqn:Hc|].
    + destruct (unsubscribe sub w) as [[[]|e] w']; [apply Hstep|].
      simpl. right. exists sub, [NextRequested; CondEvaluated sub;
                                 UnsubscribeCalled sub].
      repeat split; auto.
    + apply Hstep.
    + destruct (unsubscribe sub w) as [[[]|e] w']; [apply Hstep|].
      simpl. right. exists sub, [NextRequested; UnsubscribeCalled sub].
      repeat split; auto.
  - left. split; [now left|]. now exists [].
Qed.

End MoreSweepFacts.

(** X8. The sweep changes the platform through the [unsubscribe] calls
    it makes and through nothing else: the state it ends in is the
    state it started in after those calls, in their order, whether the
    sweep completes or fails. *)
Theorem sweep_world_is_unsubscribes
        (World : Type)
        (unsubscribe : EventSub.HelixEventSubSubscription -> World
                       -> Completion.t unit * World)
        (it : list EventSub.IterStep)
        (cond : option (EventSub.HelixEventSubSubscription -> bool))
        (w : World) :
  let sweep :=
    EventSub._deleteSubscriptionsWithCondition World unsubscribe it cond w in
  EventSub.world sweep
  = fold_left (fun w sub => snd (unsubscribe sub w))
              (EventSub.unsubscribed (EventSub.trace sweep)) w.
Proof. apply forAwait_world. Qed.

(** X9. When the source does not fail and no [unsubscribe] of a
    selected record fails, the sweep completes, having unsubscribed
    every selected record, in order; [deleteAllSubscriptions] then
    unsubscribes every record and evaluates no predicate. *)
Theorem sweep_succeeds
        (World : Type)
        (unsubscribe : EventSub.HelixEventSubSubscription -> World
                       -> Completion.t unit * World)
        (subs : list EventSub.HelixEventSubSubscription)
        (cond : option (EventSub.HelixEventSubSubscription -> bool))
        (w : World) :
  (forall sub w', In sub subs -> EventSub.selected cond sub = true ->
                  fst (unsubscribe sub w') = Normal tt) ->
  let sweep :=
    EventSub._deleteSubscriptionsWithCondition
      World unsubscribe (map EventSub.Yield subs) cond w in
  let all :=
    EventSub.deleteAllSubscriptions
      World unsubscribe (map EventSub.Yield subs) w in
  EventSub.outcome sweep = Normal tt /\
  EventSub.unsubscribed (EventSub.trace sweep)
  = filter (EventSub.selected cond) subs /\
  EventSub.world sweep
  = fold_left (fun w sub => snd (unsubscribe sub w))
              (filter (EventSub.selected cond) subs) w /\
  (cond = None ->
   EventSub.unsubscribed (EventSub.trace all) = subs /\
   EventSub.evaluated (EventSub.trace all) = []).
Proof.
  intros Hok sweep all.
  unfold EventSub.deleteAllSubscriptions in all.
  unfold EventSub._deleteSubscriptionsWithCondition in *.
  pose proof (forAwait_succeeds World unsubscribe cond subs w Hok) as Hdone.
  destruct (forAwait_completed _ _ _ _ _ Hdone) as [_ Htr].
  rewrite yielded_map_Yield in Htr.
  assert (Hun : EventSub.unsubscribed (EventSub.trace sweep)
                = filter (EventSub.selected cond) subs).
  { subst sweep. rewrite Htr. apply unsubscribed_handled. }
  split; [exact Hdone|]. split; [exact Hun|]. split.
  - rewrite <- Hun. apply forAwait_world.
  - intros ->. subst all. fold sweep. rewrite Hun. split.
    + apply filter_all. reflexivity.
    + subst sweep. rewrite Htr, evaluated_app, evaluated_handled.
      reflexivity.
Qed.

(** An [unsubscribe] that fails only for the id ["x"], on a source
    that lists ["x"] as enabled: the sweep of the broken subscriptions
    never calls it there. *)
Lemma sweep_succeeds_witness :
  let unsubscribe :=
    fun (sub : EventSub.HelixEventSubSubscription) (deleted : list string) =>
      (if EventSub.id sub =? "x" then Throw (Error "gone") else Normal tt,
       deleted ++ [EventSub.id sub]) in
  let sub := fun i st => {| EventSub.id := i; EventSub.status := st |} in
  let subs := [sub "a" "user_removed"; sub "x" "enabled";
               sub "b" "authorization_revoked"] in
  let r := EventSub.deleteBrokenSubscriptions
             (list string) unsubscribe (map EventSub.Yield subs) [] in
  EventSub.outcome r = Normal tt /\ EventSub.world r = ["a"; "b"].
Proof.
  intros unsubscribe sub subs r.
  destruct (sweep_succeeds
              (list string) unsubscribe subs
              (Some (fun sub =>
                       negb (EventSub.status sub =? "enabled")
                       && negb (EventSub.status sub
                                =? "webhook_callback_verification_pending")))
              []) as (Ho & _ & Hw & _).
  - intros s w' [<-|[<-|[<-|[]]]] Hsel; try reflexivity. discriminate Hsel.
  - split; [exact Ho|]. unfold r, EventSub.deleteBrokenSubscriptions.
    rewrite Hw. reflexivity.
Defined.

(** X10. [deleteBrokenSubscriptions] leaves healthy subscriptions
    alone: when every record the source hands out is [enabled] or
    [webhook_callback_verification_pending], the predicate is evaluated
    on each of them, [unsubscribe] is never invoked and the platform
    stays as it was. *)
Theorem deleteBrokenSubscriptions_healthy
        (World : Type)
        (unsubscribe : EventSub.HelixEventSubSubscription -> World
                       -> Completion.t unit * World)
        (it : list EventSub.IterStep) (w : World) :
  Forall (fun sub =>
            EventSub.status sub = "enabled" \/
            EventSub.status sub = "webhook_callback_verification_pending")
         (EventSub.yielded it) ->
  let r := EventSub.deleteBrokenSubscriptions World unsubscribe it w in
  EventSub.unsubscribed (EventSub.trace r) = [] /\
  EventSub.evaluated (EventSub.trace r) = EventSub.yielded it /\
  EventSub.requests (EventSub.trace r) = S (List.length (EventSub.yielded it)) /\
  EventSub.world r = w.
Proof.
  intros Hhealthy r.
  unfold EventSub.deleteBrokenSubscriptions,
    EventSub._deleteSubscriptionsWithCondition in r.
  match goal with
  | r := EventSub.forAwait _ _ ?c _ _ |- _ =>
      destruct (forAwait_none_selected World unsubscribe c it w)
      as [Htr Hw]
  end.
  - eapply Forall_impl; [|exact Hhealthy].
    intros sub [H|H]; simpl; rewrite H; reflexivity.
  - fold r in Htr, Hw. rewrite Htr. repeat split.
    + rewrite unsubscribed_handled. apply filter_none. intros sub Hin.
      rewrite Forall_forall in Hhealthy.
      destruct (Hhealthy sub Hin) as [H|H]; simpl; rewrite H; reflexivity.
    + rewrite evaluated_app, evaluated_handled. apply app_nil_r.
    + rewrite requests_app, requests_handled. simpl. lia.
    + exact Hw.
Qed.

Lemma deleteBrokenSubscriptions_healthy_witness :
  let unsubscribe :=
    fun (sub : EventSub.HelixEventSubSubscription) (deleted : list string) =>
      (Normal tt, deleted ++ [EventSub.id sub]) in
  let sub := fun i st => {| EventSub.id := i; EventSub.status := st |} in
  let it := [EventSub.Yield (sub "a" "enabled");
             EventSub.Yield (sub "b" "webhook_callback_verification_pending");
             EventSub.Fail (Error "page")] in
  let r := EventSub.deleteBrokenSubscriptions (list string) unsubscribe it [] in
  EventSub.unsubscribed (EventSub.trace r) = [] /\ EventSub.world r = [].
Proof.
  intros unsubscribe sub it r.
  destruct (deleteBrokenSubscriptions_healthy (list string) unsubscribe it [])
    as (Hu & _ & _ & Hw).
  - constructor; [now left|]. constructor; [now right|]. constructor.
  - split; [exact Hu|exact Hw].
Defined.

(** X11. A sweep reports no error of its own: when it fails, the error
    is the one the source failed with, or the one an [unsubscribe] of a
    selected record of the source was rejected with, and that failure
    is the last thing that happened; when it completes, the source has
    not failed and the last thing that happened is the request that
    found the source exhausted. *)
Theorem sweep_failure_is_last
        (World : Type)
        (unsubscribe : EventSub.HelixEventSubSubscription -> World
                       -> Completion.t unit * World)
        (it : list EventSub.IterStep)
        (cond : option (EventSub.HelixEventSubSubscription -> bool))
        (w : World) :
  let sweep :=
    EventSub._deleteSubscriptionsWithCondition World unsubscribe it cond w in
  match EventSub.outcome sweep with
  | Normal _ =>
      it = map EventSub.Yield (EventSub.yielded it) /\
      exists tr, EventSub.trace sweep = tr ++ [EventSub.NextRequested]
  | Throw e =>
      (In (EventSub.Fail e) it /\
       exists tr, EventSub.trace sweep = tr ++ [EventSub.NextRequested])
      \/
      (exists sub tr,
          In (EventSub.Yield sub) it /\ EventSub.selected cond sub = true /\
          EventSub.trace sweep = tr ++ [EventSub.UnsubscribeRejected sub e])
  end.
Proof. apply forAwait_failure. Qed.

(** ** The subscribing methods *)

Arguments EventSub.call_type {Condition HelixEventSubTransportOptions} h.
Arguments EventSub.url {Condition HelixEventSubTransportOptions} h.
Arguments EventSub.call_method {Condition HelixEventSubTransportOptions} h.
Arguments EventSub.scopes {Condition HelixEventSubTransportOptions} h.
Arguments EventSub.userId {Condition HelixEventSubTransportOptions} h.
Arguments EventSub.forceType {Condition HelixEventSubTransportOptions} h.
Arguments EventSub.jsonBody {Condition HelixEventSubTransportOptions} h.
Arguments EventSub.body_type {Condition HelixEventSubTransportOptions} j.
Arguments EventSub.body_version {Condition HelixEventSubTransportOptions} j.
Arguments EventSub.body_condition {Condition HelixEventSubTransportOptions} j.
Arguments EventSub.body_transport {Condition HelixEventSubTransportOptions} j.
Arguments EventSub.is_batching_enabled
          {Condition HelixEventSubTransportOptions} j.

Section MethodFacts.

Import HelixEventSubApi.

Context {client : Client}.

Implicit Types (type version : string) (condition : Condition)
         (transport : HelixEventSubTransportOptions)
         (user : option UserIdResolvable)
         (requiredScopeSet : option (list string)) (isBatched : option bool).

(** The request of a call that passes the guard. *)
Lemma createSubscription_sends
      type version condition transport user requiredScopeSet isBatched :
  method transport = "webhook" \/ EventSub.truthyUser toBoolean user = true ->
  exists options,
    sends (createSubscription type version condition transport user
                              requiredScopeSet isBatched) options /\
    posts options /\
    EventSub.forceType options
    = (if method transport =? "webhook" then "app" else "user") /\
    EventSub.scopes options
    = (if method transport =? "webhook" then None else requiredScopeSet) /\
    EventSub.userId options = mapOptional user extractUserId /\
    EventSub.body_type (EventSub.jsonBody options) = type /\
    EventSub.body_version (EventSub.jsonBody options) = version /\
    EventSub.body_condition (EventSub.jsonBody options) = condition /\
    EventSub.body_transport (EventSub.jsonBody options) = transport /\
    EventSub.is_batching_enabled (EventSub.jsonBody options)
    = match isBatched with
      | Some true => Some true
      | _ => None
      end.
Proof.
  intros Hpass.
  unfold createSubscription, EventSub.createSubscription, sends, posts.
  cbv zeta.
  destruct (String.eqb_spec (method transport) "webhook") as [Hm|Hm];
    destruct (EventSub.truthyUser toBoolean user) eqn:Hu; simpl;
    try (eexists; repeat split; reflexivity).
  destruct Hpass; congruence.
Qed.

Lemma createSubscription_refused
      type version condition transport user requiredScopeSet isBatched :
  method transport <> "webhook" ->
  EventSub.truthyUser toBoolean user = false ->
  refused transport (createSubscription type version condition transport user
                                        requiredScopeSet isBatched).
Proof.
  intros Hm Hu.
  unfold refused, EventSub.guardFired, createSubscription,
    EventSub.createSubscription.
  cbv zeta. rewrite Hu.
  destruct (String.eqb_spec (method transport) "webhook"); [contradiction|].
  split; reflexivity.
Qed.

Lemma sends_not_refused transport (c : Call) (options : ApiCallOptions) :
  sends c options -> ~ refused transport c.
Proof. intros [Hi _] [Hi' _]. rewrite Hi in Hi'. discriminate. Qed.

End MethodFacts.
Ltac unfold_methods :=
  unfold HelixEventSubApi.subscriptions,
    HelixEventSubApi.broadcasterSubscriptions;
  unfold
    HelixEventSubApi.subscribeToStreamOnlineEvents,
    HelixEventSubApi.subscribeToStreamOfflineEvents,
    HelixEventSubApi.subscribeToChannelUpdateEvents,
    HelixEventSubApi.subscribeToChannelFollowEvents,
    HelixEventSubApi.subscribeToChannelFollowEventsV2,
    HelixEventSubApi.subscribeToChannelSubscriptionEvents,
    HelixEventSubApi.subscribeToChannelSubscriptionGiftEvents,
    HelixEventSubApi.subscribeToChannelSubscriptionMessageEvents,
    HelixEventSubApi.subscribeToChannelSubscriptionEndEvents,
    HelixEventSubApi.subscribeToChannelCheerEvents,
    HelixEventSubApi.subscribeToChannelCharityCampaignStartEvents,
    HelixEventSubApi.subscribeToChannelCharityCampaignStopEvents,
    HelixEventSubApi.subscribeToChannelCharityDonationEvents,
    HelixEventSubApi.subscribeToChannelCharityCampaignProgressEvents,
    HelixEventSubApi.subscribeToChannelBanEvents,
    HelixEventSubApi.subscribeToChannelUnbanEvents,
    HelixEventSubApi.subscribeToChannelShieldModeBeginEvents,
    HelixEventSubApi.subscribeToChannelShieldModeEndEvents,
    HelixEventSubApi.subscribeToChannelModeratorAddEvents,
    HelixEventSubApi.subscribeToChannelModeratorRemoveEvents,
    HelixEventSubApi.subscribeToChannelRaidEventsFrom,
    HelixEventSubApi.subscribeToChannelRaidEventsTo,
    HelixEventSubApi.subscribeToChannelRewardAddEvents,
    HelixEventSubApi.subscribeToChannelRewardUpdateEvents,
    HelixEventSubApi.subscribeToChannelRewardUpdateEventsForReward,
    HelixEventSubApi.subscribeToChannelRewardRemoveEvents,
    HelixEventSubApi.subscribeToChannelRewardRemoveEventsForReward,
    HelixEventSubApi.subscribeToChannelRedemptionAddEvents,
    HelixEventSubApi.subscribeToChannelRedemptionAddEventsForReward,
    HelixEventSubApi.subscribeToChannelRedemptionUpdateEvents,
    HelixEventSubApi.subscribeToChannelRedemptionUpdateEventsForReward,
    HelixEventSubApi.subscribeToChannelPollBeginEvents,
    HelixEventSubApi.subscribeToChannelPollProgressEvents,
    HelixEventSubApi.subscribeToChannelPollEndEvents,
    HelixEventSubApi.subscribeToChannelPredictionBeginEvents,
    HelixEventSubApi.subscribeToChannelPredictionProgressEvents,
    HelixEventSubApi.subscribeToChannelPredictionLockEvents,
    HelixEventSubApi.subscribeToChannelPredictionEndEvents,
    HelixEventSubApi.subscribeToChannelGoalBeginEvents,
    HelixEventSubApi.subscribeToChannelGoalProgressEvents,
    HelixEventSubApi.subscribeToChannelGoalEndEvents,
    HelixEventSubApi.subscribeToChannelHypeTrainBeginEvents,
    HelixEventSubApi.subscribeToChannelHypeTrainProgressEvents,
    HelixEventSubApi.subscribeToChannelHypeTrainEndEvents,
    HelixEventSubApi.subscribeToChannelShoutoutCreateEvents,
    HelixEventSubApi.subscribeToChannelShoutoutReceiveEvents,
    HelixEventSubApi.subscribeToExtensionBitsTransactionCreateEvents,
    HelixEventSubApi.subscribeToUserAuthorizationGrantEvents,
    HelixEventSubApi.subscribeToUserAuthorizationRevokeEvents,
    HelixEventSubApi.subscribeToUserUpdateEvents,
    HelixEventSubApi.subscribeToDropEntitlementGrantEvents.

Ltac each_method tac :=
  unfold_methods;
  repeat (apply Forall_cons; [cbn [fst snd]; tac|]);
  apply Forall_nil.

Ltac with_request H :=
  match goal with
  | |- context [HelixEventSubApi.createSubscription
                  ?ty ?v ?c ?t ?u ?s ?b] =>
      destruct (createSubscription_sends ty v c t u s b)
      as (options & Hsends & Hposts & Hforce & Hscopes & Huser
          & Htype & Hversion & Hcondition & Htransport & Hbatching);
      [exact H|]
  end.

Section MethodTheorems.

Import HelixEventSubApi.

Context {client : Client}.

(** X12. Over a webhook transport [createSubscription] does not look
    at the required scopes: the call is the same whatever scope set is
    given, its one request carries no scopes and forces app
    authentication, and the guard does not fire even without a user. *)
Theorem createSubscription_webhook_ignores_scopes
        (type version : string) (condition : Condition)
        (transport : HelixEventSubTransportOptions)
        (user : option UserIdResolvable)
        (scopes scopes' : option (list string)) (isBatched : option bool) :
  method transport = "webhook" ->
  createSubscription type version condition transport user scopes isBatched
  = createSubscription type version condition transport user scopes' isBatched
  /\
  exists options,
    sends (createSubscription type version condition transport user scopes
                              isBatched) options /\
    EventSub.scopes options = None /\
    EventSub.forceType options = "app".
Proof.
  intros Hm. split.
  - unfold createSubscription, EventSub.createSubscription. cbv zeta.
    rewrite Hm. reflexivity.
  - assert (Hpass : method transport = "webhook"
                    \/ EventSub.truthyUser toBoolean user = true) by now left.
    with_request Hpass. exists options.
    rewrite Hm in Hforce, Hscopes. auto.
Qed.

(** X13. Over a webhook transport each of the 51 subscribing methods
    issues exactly one request, a POST to [eventsub/subscriptions] for
    the given transport, with app authentication forced and without
    scopes, whatever users it is given. *)
Theorem subscriptions_webhook
        (broadcaster moderator user : UserIdResolvable)
        (rewardId clientId : string) (withEmail : option bool)
        (filter : HelixEventSubDropEntitlementGrantFilter)
        (transport : HelixEventSubTransportOptions) :
  method transport = "webhook" ->
  List.length (subscriptions broadcaster moderator user rewardId clientId
                             withEmail filter transport) = 51 /\
  Forall (fun named =>
            exists options,
              sends (snd named) options /\ posts options /\
              EventSub.forceType options = "app" /\
              EventSub.scopes options = None /\
              EventSub.body_transport (EventSub.jsonBody options) = transport)
         (subscriptions broadcaster moderator user rewardId clientId
                        withEmail filter transport).
Proof.
  intros Hm. split; [reflexivity|].
  each_method ltac:(
    match goal with
    | |- context [createSubscription _ _ _ _ ?u _ _] =>
        assert (Hpass : method transport = "webhook"
                        \/ EventSub.truthyUser toBoolean u = true) by now left
    end;
    with_request Hpass; exists options;
    rewrite Hm in Hforce, Hscopes; auto).
Qed.

(** X14. The four methods that give [createSubscription] no user
    (extension bits transactions, user authorization grant and revoke,
    drop entitlement grants) cannot be used over a transport that is
    not a webhook: they throw the guard's error and issue no request,
    whatever their arguments. *)
Theorem subscriptions_without_user_refused
        (clientId : string)
        (filter : HelixEventSubDropEntitlementGrantFilter)
        (transport : HelixEventSubTransportOptions) :
  method transport <> "webhook" ->
  refused transport
          (subscribeToExtensionBitsTransactionCreateEvents clientId transport) /\
  refused transport
          (subscribeToUserAuthorizationGrantEvents clientId transport) /\
  refused transport
          (subscribeToUserAuthorizationRevokeEvents clientId transport) /\
  refused transport (subscribeToDropEntitlementGrantEvents filter transport).
Proof.
  intros Hm. repeat split; now apply createSubscription_refused.
Qed.

(** X15. Over a transport that is not a webhook a subscribing method
    acts for one user, and is refused exactly when that user is falsy.
    For 45 methods it is the broadcaster, also for the four that take a
    moderator for shield mode and shoutouts;
    [subscribeToChannelFollowEventsV2] acts for the moderator and
    [subscribeToUserUpdateEvents] for its user.  When not refused, the
    one request forces user authentication and names that user. *)
Theorem subscriptions_user_context
        (broadcaster moderator user : UserIdResolvable)
        (rewardId : string) (withEmail : option bool)
        (transport : HelixEventSubTransportOptions) :
  method transport <> "webhook" ->
  let acts_for (who : UserIdResolvable) (c : Call) :=
    (refused transport c <-> toBoolean who = false) /\
    (toBoolean who = true ->
     exists options,
       sends c options /\
       EventSub.forceType options = "user" /\
       EventSub.userId options = mapOptional (Some who) extractUserId) in
  List.length (broadcasterSubscriptions broadcaster moderator rewardId
                                        transport) = 45 /\
  Forall (fun named => acts_for broadcaster (snd named))
         (broadcasterSubscriptions broadcaster moderator rewardId transport) /\
  acts_for moderator
           (subscribeToChannelFollowEventsV2 broadcaster moderator transport) /\
  acts_for user (subscribeToUserUpdateEvents user transport withEmail).
Proof.
  intros Hm acts_for.
  assert (Hne : (method transport =? "webhook") = false)
    by now apply String.eqb_neq.
  assert (Hacts : forall who type version condition scopes isBatched,
             acts_for who (createSubscription type version condition transport
                                              (Some who) scopes isBatched)).
  { intros who type version condition scopes isBatched. split; [split|].
    - intros Href. destruct (toBoolean who) eqn:Hw; [|reflexivity].
      exfalso.
      destruct (createSubscription_sends
                  type version condition transport (Some who) scopes isBatched
                  (or_intror Hw)) as (options & Hsends & _).
      exact (sends_not_refused _ _ _ Hsends Href).
    - intros Hw. now apply createSubscription_refused.
    - intros Hw.
      destruct (createSubscription_sends
                  type version condition transport (Some who) scopes isBatched
                  (or_intror Hw))
        as (options & Hsends & _ & Hforce & _ & Huser & _).
      exists options. rewrite Hne in Hforce. auto. }
  split; [reflexivity|]. split; [|split].
  - each_method ltac:(apply Hacts).
  - apply Hacts.
  - apply Hacts.
Qed.

(** X16. Batching is asked for by [subscribeToDropEntitlementGrantEvents]
    alone: the request of that method enables it, and no request of any
    of the other 50 methods carries [is_batching_enabled]. *)
Theorem subscriptions_batching
        (broadcaster moderator user : UserIdResolvable)
        (rewardId clientId : string) (withEmail : option bool)
        (filter : HelixEventSubDropEntitlementGrantFilter)
        (transport : HelixEventSubTransportOptions) :
  Forall (fun named =>
            forall options,
              In options (EventSub.issued (snd named)) ->
              EventSub.is_batching_enabled (EventSub.jsonBody options)
              = if fst named =? "subscribeToDropEntitlementGrantEvents"
                then Some true else None)
         (subscriptions broadcaster moderator user rewardId clientId
                        withEmail filter transport).
Proof.
  each_method ltac:(
    unfold createSubscription, EventSub.createSubscription; cbv zeta;
    destruct (method transport =? "webhook"); simpl;
    try match goal with
        | |- context [toBoolean ?u] => destruct (toBoolean u)
        end;
    simpl; intros options Hin;
    (contradiction || (destruct Hin as [<-|[]]; reflexivity))).
Qed.

(** X17. [subscribeToUserUpdateEvents]: with the webhook transport
    [withEmail] has no effect; with another transport and a truthy
    user, the request asks for the scope [user:read:email] exactly when
    [withEmail] is true. *)
Theorem subscribeToUserUpdateEvents_withEmail
        (user : UserIdResolvable)
        (transport : HelixEventSubTransportOptions)
        (withEmail withEmail' : option bool) :
  (method transport = "webhook" ->
   subscribeToUserUpdateEvents user transport withEmail
   = subscribeToUserUpdateEvents user transport withEmail') /\
  (method transport <> "webhook" -> toBoolean user = true ->
   exists options,
     sends (subscribeToUserUpdateEvents user transport withEmail) options /\
     EventSub.scopes options
     = if match withEmail with
          | Some flag => flag
          | None => false
          end
       then Some ["user:read:email"] else None).
Proof.
  unfold subscribeToUserUpdateEvents. split.
  - intros Hm. unfold createSubscription, EventSub.createSubscription.
    cbv zeta. rewrite Hm. reflexivity.
  - intros Hm Hu.
    assert (Hpass : method transport = "webhook"
                    \/ EventSub.truthyUser toBoolean (Some user) = true)
      by now right.
    with_request Hpass. exists options. split; [exact Hsends|].
    rewrite Hscopes.
    destruct (String.eqb_spec (method transport) "webhook"); [contradiction|].
    now destruct withEmail as [[|]|].
Qed.

End MethodTheorems.

(** The theorems above, run on the sample client. *)

Lemma createSubscription_webhook_ignores_scopes_witness :
  HelixEventSubApi.createSubscription
    (client := HelixEventSubApi.sampleClient)
    "channel.cheer" "1" [("broadcaster_user_id", "1")] "webhook" None
    (Some ["bits:read"]) None
  = HelixEventSubApi.createSubscription
      (client := HelixEventSubApi.sampleClient)
      "channel.cheer" "1" [("broadcaster_user_id", "1")] "webhook" None
      None None.
Proof.
  apply (createSubscription_webhook_ignores_scopes
           (client := HelixEventSubApi.sampleClient)
           "channel.cheer" "1" [("broadcaster_user_id", "1")] "webhook" None
           (Some ["bits:read"]) None None).
  reflexivity.
Defined.

Lemma subscriptions_webhook_witness :
  Forall (fun named =>
            exists options,
              HelixEventSubApi.sends
                (client := HelixEventSubApi.sampleClient) (snd named) options /\
              HelixEventSubApi.posts options /\
              EventSub.forceType options = "app" /\
              EventSub.scopes options = None /\
              EventSub.body_transport (EventSub.jsonBody options) = "webhook")
         (HelixEventSubApi.subscriptions
            (client := HelixEventSubApi.sampleClient)
            "1" "2" "3" "reward" "client" (Some true) [] "webhook").
Proof.
  apply (subscriptions_webhook
           (client := HelixEventSubApi.sampleClient)
           "1" "2" "3" "reward" "client" (Some true) [] "webhook").
  reflexivity.
Defined.

Lemma subscriptions_without_user_refused_witness :
  HelixEventSubApi.refused
    (client := HelixEventSubApi.sampleClient) "websocket"
    (HelixEventSubApi.subscribeToDropEntitlementGrantEvents
       (client := HelixEventSubApi.sampleClient)
       [("category_id", "9")] "websocket").
Proof.
  apply (subscriptions_without_user_refused
           (client := HelixEventSubApi.sampleClient)
           "client" [("category_id", "9")] "websocket").
  discriminate.
Defined.

(** The moderator is given and the broadcaster is the empty string:
    following is subscribed to, shield mode is refused. *)
Lemma subscriptions_user_context_witness :
  (exists options,
      HelixEventSubApi.sends
        (client := HelixEventSubApi.sampleClient)
        (HelixEventSubApi.subscribeToChannelFollowEventsV2
           (client := HelixEventSubApi.sampleClient) "" "2" "websocket")
        options /\
      EventSub.userId options = Some "2") /\
  Forall (fun named =>
            HelixEventSubApi.refused
              (client := HelixEventSubApi.sampleClient) "websocket" (snd named))
         (HelixEventSubApi.broadcasterSubscriptions
            (client := HelixEventSubApi.sampleClient)
            "" "2" "reward" "websocket").
Proof.
  destruct (subscriptions_user_context
              (client := HelixEventSubApi.sampleClient)
              "" "2" "3" "reward" None "websocket")
    as (_ & Hall & [_ Hfollow] & _).
  - discriminate.
  - split.
    + destruct (Hfollow eq_refl) as (options & Hsends & _ & Huser).
      now exists options.
    + eapply Forall_impl; [|exact Hall].
      intros named [Href _]. now apply Href.
Defined.

Lemma subscribeToUserUpdateEvents_withEmail_witness :
  HelixEventSubApi.subscribeToUserUpdateEvents
    (client := HelixEventSubApi.sampleClient) "3" "webhook" (Some true)
  = HelixEventSubApi.subscribeToUserUpdateEvents
      (client := HelixEventSubApi.sampleClient) "3" "webhook" None
  /\
  exists options,
    HelixEventSubApi.sends
      (client := HelixEventSubApi.sampleClient)
      (HelixEventSubApi.subscribeToUserUpdateEvents
         (client := HelixEventSubApi.sampleClient) "3" "websocket" (Some true))
      options /\
    EventSub.scopes options = Some ["user:read:email"].
Proof.
  split.
  - apply (subscribeToUserUpdateEvents_withEmail
             (client := HelixEventSubApi.sampleClient)
             "3" "webhook" (Some true) None).
    reflexivity.
  - apply (subscribeToUserUpdateEvents_withEmail
             (client := HelixEventSubApi.sampleClient)
             "3" "websocket" (Some true) None).
    + discriminate.
    + reflexivity.
Defined.
